(** * The databus converter registry: conversion paths between mimetypes

    A shallow embedding of the converter combinators, the URL mimetype
    wrappers and [ConverterRegistry] (register / convert /
    listTargetMimeTypes), with the properties the specification states
    about them.

    JavaScript's [Map] and [Set] iterate in insertion order and the
    breadth-first search depends on that order, so both are modelled as
    lists: a [Map<string, V>] as an association list with unique keys whose
    [set] overwrites in place, a [Set] as a duplicate-free list whose [add]
    appends.  Objects compared by reference (URL objects, converter
    functions) carry the reference they are compared by. *)

From Stdlib Require Import List String Ascii Bool Arith Lia.
Import ListNotations.
Open Scope string_scope.
Open Scope list_scope.

(** * Part I: the embedding *)

(** ** JavaScript [Map<string, V>] *)

Module JsMap.

Definition t (V : Type) : Type := list (string * V).

Definition empty {V : Type} : t V := [].

Fixpoint get {V : Type} (m : t V) (k : string) : option V :=
  match m with
  | [] => None
  | (k', v) :: m' => if String.eqb k' k then Some v else get m' k
  end.

Definition has {V : Type} (m : t V) (k : string) : bool :=
  match get m k with Some _ => true | None => false end.

(** [m.set(k, v)]: an existing key keeps its position, a new key goes last. *)
Fixpoint set {V : Type} (m : t V) (k : string) (v : V) : t V :=
  match m with
  | [] => [(k, v)]
  | (k', v') :: m' =>
      if String.eqb k' k then (k', v) :: m' else (k', v') :: set m' k v
  end.

Definition keys {V : Type} (m : t V) : list string := map fst m.

(** [new Map(entries)] *)
Definition of_entries {V : Type} (es : list (string * V)) : t V :=
  fold_left (fun m e => set m (fst e) (snd e)) es empty.

End JsMap.

(** ** JavaScript [Set], membership decided by [same] *)

Module JsSet.

Definition has {A : Type} (same : A -> A -> bool) (s : list A) (x : A) : bool :=
  existsb (same x) s.

Definition add {A : Type} (same : A -> A -> bool) (s : list A) (x : A) : list A :=
  if has same s x then s else s ++ [x].

(** [s.delete(x)] *)
Definition delete {A : Type} (same : A -> A -> bool) (s : list A) (x : A) : list A :=
  filter (fun y => negb (same x y)) s.

(** [new Set(iterable)] *)
Definition of_list {A : Type} (same : A -> A -> bool) (l : list A) : list A :=
  fold_left (add same) l [].

End JsSet.

(** ** URL mimetype wrappers (urls.ts) *)

Definition baseMimeType : string := "application/x.jupyter.url; mimeType=".

(** [s.startsWith(p)] *)
Fixpoint startsWith (s p : string) {struct p} : bool :=
  match p with
  | EmptyString => true
  | String c p' =>
      match s with
      | EmptyString => false
      | String d s' => if Ascii.eqb d c then startsWith s' p' else false
      end
  end.

(** [s.slice(n)] for [0 <= n] *)
Fixpoint slice (s : string) (n : nat) {struct n} : string :=
  match n with
  | 0 => s
  | S n' => match s with EmptyString => EmptyString | String _ s' => slice s' n' end
  end.

Definition URLMimeType (mimeType : string) : string :=
  (baseMimeType ++ mimeType)%string.

Definition extractURLMimeType (mimeType : string) : option string :=
  if negb (startsWith mimeType baseMimeType) then None
  else Some (slice mimeType (String.length baseMimeType)).

(** A [URL] object.  Two URL objects are the same member of a [Set<URL>]
    when they are the same object, whatever they spell: [url_ref] is the
    object's reference. *)
Record URL : Type := mkURL { url_ref : nat; href : string; protocol : string }.

Definition same_url (a b : URL) : bool := Nat.eqb (url_ref a) (url_ref b).

(** ** Values, failures, promises *)

Section Embedding.

(** Payloads are [any]; the one payload the registry itself produces is
    [undefined], when it reads a mimetype the data map does not hold. *)
Context {Any : Type} (undefined : Any).

(** What an exception or an awaited rejection carries. *)
Inductive Failure : Type :=
| ThrownError (message : string)
| ThrownTypeError
| Rejection (reason : Any).

(** The settled state of the promise an async function returns. *)
Inductive Promise (V : Type) : Type :=
| Resolved (v : V)
| Rejected (reason : Any).

(** A computation that returns or throws. *)
Definition Throws (A : Type) : Type := (Failure + A)%type.

(** ** Converters (converters.ts) *)

Definition Transform (T V : Type) : Type := T -> Promise V.

Definition Converter (T V : Type) : Type := string -> JsMap.t (Transform T V).

Definition composeConverters {T V : Type} (a b : Converter T V) : Converter T V :=
  fun mimeType => JsMap.of_entries (a mimeType ++ b mimeType).

Definition emptyConverter {T V : Type} : Converter T V :=
  fun mimeType => JsMap.empty.

Definition composeManyConverters {T V : Type} (converters : list (Converter T V))
  : Converter T V :=
  fold_left composeConverters converters emptyConverter.

(** [singleConverter] around a callback that may throw; the exception
    passes through. *)
Definition singleConverterE {T V : Type}
  (fn : string -> Throws (option (string * Transform T V)))
  : string -> Throws (JsMap.t (Transform T V)) :=
  fun mimeType =>
    match fn mimeType with
    | inl e => inl e
    | inr None => inr JsMap.empty
    | inr (Some possibleResult) => inr (JsMap.of_entries [possibleResult])
    end.

(** [singleConverter] around a callback that never throws. *)
Definition singleConverter {T V : Type}
  (fn : string -> option (string * Transform T V)) : Converter T V :=
  fun mimeType =>
    match fn mimeType with
    | None => JsMap.empty
    | Some possibleResult => JsMap.of_entries [possibleResult]
    end.

Definition seperateConverter {T V : Type}
  (computeMimeType : string -> option string) (convert : Transform T V)
  : Converter T V :=
  singleConverter (fun mimeType =>
    match computeMimeType mimeType with
    | None => None
    | Some targetMimeType => Some (targetMimeType, convert)
    end).

Definition staticConverter {T V : Type}
  (sourceMimeType targetMimeType : string) (convert : Transform T V)
  : Converter T V :=
  seperateConverter
    (fun mimeType =>
       if String.eqb mimeType sourceMimeType then Some targetMimeType else None)
    convert.

(** ** resolverURLConverter (urls.ts) *)

(** The arrow function handed to [singleConverter]: it declares two
    parameters.  [url] is [None] when the caller passes no second argument;
    reading [url.protocol] then throws a TypeError.  [extractResolveMimeType]
    is imported from the package index, which is not part of the sources at
    hand, and is taken as a parameter. *)
Definition resolverCallback (extractResolveMimeType : string -> option string)
  (mimeType : string) (url : option URL)
  : Throws (option (string * Transform string URL)) :=
  match extractResolveMimeType mimeType with
  | None => inr None
  | Some resMimeType =>
      match url with
      | None => inl ThrownTypeError
      | Some u =>
          let isHTTP := String.eqb (protocol u) "http:" in
          let isHTTPS := String.eqb (protocol u) "https:" in
          if isHTTP || isHTTPS
          then inr (Some (URLMimeType resMimeType, fun _ : string => Resolved URL u))
          else inr None
      end
  end.

(** A JavaScript call with one argument to a function of two parameters:
    the second parameter is [undefined]. *)
Definition call1 {A B R : Type} (f : A -> option B -> R) (a : A) : R := f a None.

(** [singleConverter] calls [fn(mimeType)], with the mimetype alone. *)
Definition resolverURLConverter (extractResolveMimeType : string -> option string)
  : string -> Throws (JsMap.t (Transform string URL)) :=
  singleConverterE (call1 (resolverCallback extractResolveMimeType)).

(** ** Datasets *)

(** Modelled from the spec: [Dataset], declared in dataregistry.ts (not
    among the sources), is an immutable triple of mimetype, URL and payload.
    [convert] builds one from these three and reads the three fields back. *)
Record Dataset : Type := mkDataset { mimeType : string; url : URL; data : Any }.

(** ** Graph search (graph.ts) *)

(** Modelled from the spec: a path as the reachability map of graph.ts
    (not among the sources) stores it, the edges taken, each with the
    mimetype it leaves. *)
Definition Path (V : Type) : Type := list (string * V).

(** Modelled from the spec: the path recorded for the mimetype an edge
    leaves, the parent path of the edge's target. *)
Definition parent_path {V : Type} (res : JsMap.t (Path V)) (from : string) : Path V :=
  match JsMap.get res from with Some p => p | None => [] end.

(** Modelled from the spec: the body of [reachable]'s search, which lives
    in graph.ts (not among the sources).  For one edge out of a frontier
    mimetype: a target that is already visited is skipped; otherwise its
    path is the parent's path plus this edge, it is marked visited and it
    joins the next frontier. *)
Definition visit_edge {V : Type} (from : string)
  (st : JsMap.t (Path V) * list string) (e : string * V)
  : JsMap.t (Path V) * list string :=
  if JsMap.has (fst st) (fst e) then st
  else (JsMap.set (fst st) (fst e) (parent_path (fst st) from ++ [(from, snd e)]),
        JsSet.add String.eqb (snd st) (fst e)).

(** Modelled from the spec: one frontier mimetype of graph.ts's [reachable];
    the composed converter is queried for its outgoing edges. *)
Definition visit_node {V : Type} (edges : string -> JsMap.t V)
  (st : JsMap.t (Path V) * list string) (from : string)
  : JsMap.t (Path V) * list string :=
  fold_left (visit_edge from) (edges from) st.

(** Modelled from the spec: one layer of graph.ts's [reachable]. *)
Definition bfs_layer {V : Type} (edges : string -> JsMap.t V)
  (res : JsMap.t (Path V)) (frontier : list string)
  : JsMap.t (Path V) * list string :=
  fold_left (visit_node edges) frontier (res, []).

(** Modelled from the spec: the loop of graph.ts's [reachable], repeated
    until the frontier is empty.  The graph is defined by a function and
    may be infinite, so the loop takes fuel: [None] is a search that has not
    finished within [fuel] layers. *)
Fixpoint reachable_loop {V : Type} (fuel : nat) (edges : string -> JsMap.t V)
  (res : JsMap.t (Path V)) (frontier : list string) : option (JsMap.t (Path V)) :=
  match frontier with
  | [] => Some res
  | _ :: _ =>
      match fuel with
      | 0 => None
      | S fuel' =>
          let st := bfs_layer edges res frontier in
          reachable_loop fuel' edges (fst st) (snd st)
      end
  end.

(** Modelled from the spec: [reachable(edges, initial)] of graph.ts.  The
    starting mimetypes form the first frontier, each visited with the empty
    path. *)
Definition reachable {V : Type} (fuel : nat) (edges : string -> JsMap.t V)
  (initial : list string) : option (JsMap.t (Path V)) :=
  reachable_loop fuel edges (JsMap.of_entries (map (fun i => (i, [])) initial)) initial.

(** Modelled from the spec: the edges of a path as [expandPath] of graph.ts
    yields them, each with the mimetype it arrives at. *)
Fixpoint expand_hops {V : Type} (last : string) (path : Path V)
  : list (option string * option V * string) :=
  match path with
  | [] => []
  | (from, edge) :: rest =>
      (Some from, Some edge,
       match rest with [] => last | (next, _) :: _ => next end)
      :: expand_hops last rest
  end.

(** Modelled from the spec: [expandPath(last, path)] of graph.ts.  No path
    (the target was not reached) expands to nothing.  A path starts with an
    entry that has only a result, the mimetype the path starts at; every
    edge follows as (from, transform, to). *)
Definition expandPath {V : Type} (last : string) (path : option (Path V))
  : list (option string * option V * string) :=
  match path with
  | None => []
  | Some p =>
      (None, None, match p with [] => last | (first, _) :: _ => first end)
      :: expand_hops last p
  end.

(** ** ConverterRegistry (converters.ts) *)

(** A registered converter: the function, and the reference the registry's
    [Set] compares it by. *)
Record ConverterObj : Type :=
  mkConverter { conv_ref : nat; conv_fn : Converter Any Any }.

Definition same_converter (a b : ConverterObj) : bool :=
  Nat.eqb (conv_ref a) (conv_ref b).

Inductive ChangeType : Type := added | removed.

Record IConvertersChangedArgs : Type :=
  mkChange { converter : ConverterObj; change_type : ChangeType }.

(** The registry's state: the converter set, and what the
    [convertersChanged] signal has emitted so far, oldest first. *)
Record ConverterRegistry : Type :=
  mkRegistry { _converters : list ConverterObj;
               emitted : list IConvertersChangedArgs }.

Definition new_registry : ConverterRegistry :=
  {| _converters := []; emitted := [] |}.

(** The [DisposableDelegate] that [register] returns: its callback removes
    [handle_converter]; [isDisposed] is set once it has run. *)
Record Handle : Type :=
  mkHandle { handle_converter : ConverterObj; isDisposed : bool }.

Definition register (reg : ConverterRegistry) (c : ConverterObj)
  : ConverterRegistry * Handle :=
  ({| _converters := JsSet.add same_converter (_converters reg) c;
      emitted := emitted reg ++ [mkChange c added] |},
   mkHandle c false).

(** [handle.dispose()]: the callback runs once. *)
Definition dispose (reg : ConverterRegistry) (h : Handle)
  : ConverterRegistry * Handle :=
  if isDisposed h then (reg, h)
  else
    ({| _converters := JsSet.delete same_converter (_converters reg) (handle_converter h);
        emitted := emitted reg ++ [mkChange (handle_converter h) removed] |},
     mkHandle (handle_converter h) true).

Definition _reachable (fuel : nat) (reg : ConverterRegistry) (mimeTypes : list string)
  : option (JsMap.t (Path (Transform Any Any))) :=
  let converter := composeManyConverters (map conv_fn (_converters reg)) in
  reachable fuel converter (JsSet.of_list String.eqb mimeTypes).

Definition listTargetMimeTypes (fuel : nat) (reg : ConverterRegistry)
  (sourceMimeTypes : list string) : option (list string) :=
  match _reachable fuel reg sourceMimeTypes with
  | None => None
  | Some r => Some (JsSet.of_list String.eqb (JsMap.keys r))
  end.

(** What a consumer that drains [convert]'s iterator observes, in order:
    the values yielded, and the transform calls made in between (the hop's
    two mimetypes and the argument). *)
Inductive Event : Type :=
| Yielded (value : option Dataset)
| Invoked (initialMimeType resultMimeType : string) (arg : Any).

Inductive Outcome : Type :=
| Completed
| Failed (e : Failure).

Record Run : Type := mkRun { trace : list Event; outcome : Outcome }.

Definition and_then (e : Event) (r : Run) : Run :=
  {| trace := e :: trace r; outcome := outcome r |}.

(** [!initialMimeType]: null and the empty string are falsy. *)
Definition falsy (s : option string) : bool :=
  match s with
  | None => true
  | Some s' => String.eqb s' ""
  end.

Definition datas_get (datas : JsMap.t Any) (k : string) : Any :=
  match JsMap.get datas k with Some d => d | None => undefined end.

(** The [for ... of expandPath(...)] loop of [convert]. *)
Fixpoint walk (sourceDatasets : list Dataset) (u : URL) (datas : JsMap.t Any)
  (steps : list (option string * option (Transform Any Any) * string)) : Run :=
  match steps with
  | [] => {| trace := []; outcome := Completed |}
  | (initialMimeType, convert, resultMimeType) :: rest =>
      if falsy initialMimeType then
        and_then
          (Yielded (find (fun dataset => String.eqb (mimeType dataset) resultMimeType)
                         sourceDatasets))
          (walk sourceDatasets u datas rest)
      else
        let from := match initialMimeType with Some s => s | None => "" end in
        match convert with
        | None => {| trace := []; outcome := Failed ThrownTypeError |}
        | Some f =>
            let arg := datas_get datas from in
            match f arg with
            | Rejected _ reason =>
                {| trace := [Invoked from resultMimeType arg];
                   outcome := Failed (Rejection reason) |}
            | Resolved _ d =>
                and_then (Invoked from resultMimeType arg)
                  (and_then (Yielded (Some (mkDataset resultMimeType u d)))
                     (walk sourceDatasets u (JsMap.set datas resultMimeType d) rest))
            end
        end
  end.

(** The first loop of [convert]: the URL objects seen and the data map. *)
Definition collect (sourceDatasets : list Dataset) : list URL * JsMap.t Any :=
  fold_left
    (fun acc d => (JsSet.add same_url (fst acc) (url d),
                   JsMap.set (snd acc) (mimeType d) (data d)))
    sourceDatasets ([], JsMap.empty).

Definition inconsistent_source : Failure :=
  ThrownError "Datasets with different URLs were passed into convert: [object Set]".

(** [convert(sourceDatasets, targetMimeType)], drained by its consumer.
    [None]: the graph search has not finished within [fuel] layers. *)
Definition convert (fuel : nat) (reg : ConverterRegistry)
  (sourceDatasets : list Dataset) (targetMimeType : string) : option Run :=
  let urls := fst (collect sourceDatasets) in
  let datas := snd (collect sourceDatasets) in
  match urls with
  | [u] =>
      match _reachable fuel reg (JsMap.keys datas) with
      | None => None
      | Some r =>
          Some (walk sourceDatasets u datas
                  (expandPath targetMimeType (JsMap.get r targetMimeType)))
      end
  | _ => Some {| trace := []; outcome := Failed inconsistent_source |}
  end.

(** The values a run yielded, and the transform calls it made. *)
Definition yields (r : Run) : list (option Dataset) :=
  flat_map (fun e => match e with Yielded v => [v] | Invoked _ _ _ => [] end) (trace r).

Definition invocations (r : Run) : list (string * string * Any) :=
  flat_map (fun e => match e with
                     | Yielded _ => []
                     | Invoked a b x => [(a, b, x)]
                     end) (trace r).

(** The data map after the loop of [convert] has gone through [steps],
    when none of them fails. *)
Fixpoint datas_after (datas : JsMap.t Any)
  (steps : list (option string * option (Transform Any Any) * string))
  : option (JsMap.t Any) :=
  match steps with
  | [] => Some datas
  | (initialMimeType, convert, resultMimeType) :: rest =>
      if falsy initialMimeType then datas_after datas rest
      else
        match convert with
        | None => None
        | Some f =>
            match f (datas_get datas
                       (match initialMimeType with Some s => s | None => "" end)) with
            | Rejected _ _ => None
            | Resolved _ d => datas_after (JsMap.set datas resultMimeType d) rest
            end
        end
  end.

(** Registering converters one after the other. *)
Definition register_all (reg : ConverterRegistry) (cs : list ConverterObj)
  : ConverterRegistry :=
  fold_left (fun r c => fst (register r c)) cs reg.

End Embedding.

Arguments Resolved {Any V} v.
Arguments Rejected {Any V} reason.

(** ** Vocabulary of the specification *)

(** The mimetype graph of a converter: [edge_path edges s p t] says that
    [p] is a chain of edges leading from [s] to [t], each edge recorded
    with the mimetype it leaves and the transform it applies. *)
Inductive edge_path {V : Type} (edges : string -> JsMap.t V) (s : string)
  : Path V -> string -> Prop :=
| edge_path_nil : edge_path edges s [] s
| edge_path_snoc (p : Path V) (u : string) (e : V) (t : string) :
    edge_path edges s p u -> In (t, e) (edges u) ->
    edge_path edges s (p ++ [(u, e)]) t.

(** [universe] bounds the graph: it is closed under the edges. *)
Definition closed_under {V : Type} (edges : string -> JsMap.t V)
  (universe : list string) : Prop :=
  forall u t e, In u universe -> In (t, e) (edges u) -> In t universe.

(** The converter the registry searches with. *)
Definition graph_of {Any : Type} (reg : @ConverterRegistry Any) : Converter Any Any :=
  composeManyConverters (map conv_fn (_converters reg)).

(** The URL objects a list of datasets references, each once. *)
Definition url_objects {Any : Type} (ds : list (@Dataset Any)) : list nat :=
  nodup Nat.eq_dec (map (fun d => url_ref (url d)) ds).

(** The work of one layer, edge by edge: the frontier mimetypes in order,
    each with its outgoing edges in order. *)
Definition layer_work {V : Type} (edges : string -> JsMap.t V) (frontier : list string)
  : list (string * (string * V)) :=
  flat_map (fun u => map (fun e => (u, e)) (edges u)) frontier.

(** What holds of the search when it starts the layer at depth [k]. *)
Record bfs_inv {V : Type} (edges : string -> JsMap.t V) (initial : list string)
  (k : nat) (res : JsMap.t (Path V)) (frontier : list string) : Prop :=
  mk_bfs_inv {
    inv_init : forall s, In s initial -> JsMap.get res s = Some [];
    inv_path : forall m p, JsMap.get res m = Some p ->
               List.length p <= k /\ exists s, In s initial /\ edge_path edges s p m;
    inv_frontier : forall m, In m frontier <->
               exists p, JsMap.get res m = Some p /\ List.length p = k;
    inv_closed : forall u p t e, JsMap.get res u = Some p -> List.length p < k ->
               In (t, e) (edges u) ->
               exists q, JsMap.get res t = Some q /\ List.length q <= S (List.length p)
  }.

(** What holds inside a layer that started from [res0], after the edges
    [done] of the layer's work. *)
Record layer_inv {V : Type} (res0 : JsMap.t (Path V))
  (done : list (string * (string * V))) (st : JsMap.t (Path V) * list string) : Prop :=
  mk_layer_inv {
    lay_keep : forall m p, JsMap.get res0 m = Some p -> JsMap.get (fst st) m = Some p;
    lay_new : forall m p, JsMap.get (fst st) m = Some p ->
              JsMap.get res0 m = Some p \/
              (JsMap.get res0 m = None /\
               exists u e, In (u, (m, e)) done /\ p = parent_path res0 u ++ [(u, e)]);
    lay_next : forall m, In m (snd st) <->
              JsMap.get res0 m = None /\ JsMap.get (fst st) m <> None;
    lay_done : forall u t e, In (u, (t, e)) done -> JsMap.get (fst st) t <> None
  }.

(** What a layer keeps about its two collections, [n0] keys before the
    layer: the keys stay distinct and inside the universe, and the next
    frontier lists exactly the keys the layer has added. *)
Definition layer_size {V : Type} (universe : list string) (n0 : nat)
  (st : JsMap.t (Path V) * list string) : Prop :=
  NoDup (JsMap.keys (fst st)) /\
  incl (JsMap.keys (fst st)) universe /\
  incl (snd st) (JsMap.keys (fst st)) /\
  List.length (JsMap.keys (fst st)) = (n0 + List.length (snd st))%nat.

(** The orders in which three converters can be registered. *)
Definition orders3 {A : Type} (x y z : A) : list (list A) :=
  [[x; y; z]; [x; z; y]; [y; x; z]; [y; z; x]; [z; x; y]; [z; y; x]].

(** ** Sample data *)

Definition sample_url : URL := mkURL 0 "http://example.org/data.csv" "http:".

(** Another URL object that spells the same address. *)
Definition sample_url_twin : URL := mkURL 1 "http://example.org/data.csv" "http:".

(** String payloads, and the string that stands for [undefined] among them. *)
Definition no_payload : string := "undefined".

Definition tag (suffix : string) : @Transform string string string :=
  fun x => Resolved (x ++ suffix)%string.

Definition broken (reason : string) : @Transform string string string :=
  fun _ => Rejected reason.

Definition conv_AB : @ConverterObj string :=
  mkConverter 1 (staticConverter "A" "B" (tag ">B")).

Definition conv_BC : @ConverterObj string :=
  mkConverter 2 (staticConverter "B" "C" (tag ">C")).

Definition conv_BC_broken : @ConverterObj string :=
  mkConverter 2 (staticConverter "B" "C" (broken "decode error")).

Definition conv_AC : @ConverterObj string :=
  mkConverter 3 (staticConverter "A" "C" (tag ">C")).

Definition conv_CD : @ConverterObj string :=
  mkConverter 3 (staticConverter "C" "D" (tag ">D")).

Definition source_A : @Dataset string := mkDataset "A" sample_url "a".

(** A recogniser of resolve wrappers to put in place of
    [extractResolveMimeType], whose own prefix the sources at hand do not
    show. *)
Definition sample_extractResolveMimeType (mimeType : string) : option string :=
  if startsWith mimeType "resolve;" then Some (slice mimeType 8) else None.

(** ** More of urls.ts and of the loop of [convert] *)

(** [url.toString()] of the [URL | string] that [URLStringConverter]
    converts. *)
Definition url_toString (x : URL + string) : string :=
  match x with
  | inl u => href u
  | inr s => s
  end.

(** [URLStringConverter] (urls.ts).  Its transform fetches the address and
    resolves to the body of the response as text; the network is the
    parameter [fetch_text], from the address to the settled promise. *)
Definition URLStringConverter {Any : Type} (fetch_text : string -> @Promise Any string)
  : @Converter Any (URL + string) string :=
  seperateConverter extractURLMimeType (fun url => fetch_text (url_toString url)).

(** A [Map] proper: each key once. *)
Definition well_formed {V : Type} (m : JsMap.t V) : Prop := NoDup (JsMap.keys m).

(** An entry of the path that [convert] walks, for a hop with its
    transform. *)
Definition hop_entry {Any : Type} (h : string * @Transform Any Any Any * string)
  : option string * option (@Transform Any Any Any) * string :=
  (Some (fst (fst h)), Some (snd (fst h)), snd h).

(** Hops that follow one another: each leaves the mimetype the one before
    arrives at, and none leaves the empty mimetype. *)
Fixpoint chained {Any : Type} (hops : list (string * @Transform Any Any Any * string))
  : Prop :=
  match hops with
  | [] => True
  | h :: rest =>
      fst (fst h) <> "" /\
      match rest with
      | [] => True
      | h' :: _ => snd h = fst (fst h')
      end /\
      chained rest
  end.

(** A pipeline with no data map: each transform is applied to the result
    of the one before it, and each result is yielded as a dataset of the
    URL [u]. *)
Fixpoint pipeline {Any : Type} (u : URL)
  (hops : list (string * @Transform Any Any Any * string)) (x : Any) : @Run Any :=
  match hops with
  | [] => {| trace := []; outcome := Completed |}
  | h :: rest =>
      match snd (fst h) x with
      | Rejected reason =>
          {| trace := [Invoked (fst (fst h)) (snd h) x];
             outcome := Failed (Rejection reason) |}
      | Resolved y =>
          and_then (Invoked (fst (fst h)) (snd h) x)
            (and_then (Yielded (Some (mkDataset (snd h) u y)))
               (pipeline u rest y))
      end
  end.

(** The elements a run has produced: the datasets that [convert] built
    from the result of a transform and yielded right after calling it
    (line 236), as against the source datasets, which exist before the
    call and which it passes on (line 229).  [after_call] says whether the
    event before was a transform call. *)
Fixpoint built_from {Any : Type} (after_call : bool) (t : list (@Event Any))
  : list (@Dataset Any) :=
  match t with
  | [] => []
  | Invoked _ _ _ :: rest => built_from true rest
  | Yielded (Some d) :: rest =>
      if after_call then d :: built_from false rest else built_from false rest
  | Yielded None :: rest => built_from false rest
  end.

Definition produced {Any : Type} (r : @Run Any) : list (@Dataset Any) :=
  built_from false (trace r).

(** The converters of a list that are registered for the first time, in
    the order of the list: [seen] holds the references met so far. *)
Fixpoint first_registrations {Any : Type} (seen : list nat)
  (cs : list (@ConverterObj Any)) : list (@ConverterObj Any) :=
  match cs with
  | [] => []
  | c :: rest =>
      if existsb (Nat.eqb (conv_ref c)) seen then first_registrations seen rest
      else c :: first_registrations (seen ++ [conv_ref c]) rest
  end.

(** * Part II: the properties *)

(** ** Maps and sets *)

Lemma get_set_same {V : Type} (m : JsMap.t V) k v :
  JsMap.get (JsMap.set m k v) k = Some v.
Proof.
  induction m as [|[k' v'] m IH]; simpl.
  - now rewrite String.eqb_refl.
  - destruct (String.eqb k' k) eqn:E; simpl; rewrite E; auto.
Qed.

Lemma get_set_other {V : Type} (m : JsMap.t V) k k' v :
  k <> k' -> JsMap.get (JsMap.set m k v) k' = JsMap.get m k'.
Proof.
  intros Hne. induction m as [|[k0 v0] m IH]; simpl.
  - destruct (String.eqb k k') eqn:E; auto.
    apply String.eqb_eq in E. contradiction.
  - destruct (String.eqb k0 k) eqn:E; simpl.
    + apply String.eqb_eq in E. subst k0.
      destruct (String.eqb k k') eqn:E'; auto.
      apply String.eqb_eq in E'. contradiction.
    + now rewrite IH.
Qed.

Lemma get_In_keys {V : Type} (m : JsMap.t V) k :
  JsMap.get m k <> None <-> In k (JsMap.keys m).
Proof.
  induction m as [|[k0 v0] m IH]; simpl.
  - split; [congruence | tauto].
  - destruct (String.eqb k0 k) eqn:E.
    + apply String.eqb_eq in E. split; [auto | congruence].
    + apply String.eqb_neq in E. rewrite IH.
      split; [auto | intros [?|?]; [contradiction | auto]].
Qed.

Lemma has_true {V : Type} (m : JsMap.t V) k :
  JsMap.has m k = true <-> In k (JsMap.keys m).
Proof.
  rewrite <- get_In_keys. unfold JsMap.has.
  destruct (JsMap.get m k); split; congruence.
Qed.

Lemma has_false {V : Type} (m : JsMap.t V) k :
  JsMap.has m k = false <-> JsMap.get m k = None.
Proof. unfold JsMap.has. destruct (JsMap.get m k); split; congruence. Qed.

Lemma keys_set_new {V : Type} (m : JsMap.t V) k v :
  JsMap.has m k = false -> JsMap.keys (JsMap.set m k v) = JsMap.keys m ++ [k].
Proof.
  unfold JsMap.has. induction m as [|[k0 v0] m IH]; simpl; auto.
  destruct (String.eqb k0 k); [discriminate|].
  intros H. simpl. f_equal. auto.
Qed.

Lemma keys_set_old {V : Type} (m : JsMap.t V) k v :
  JsMap.has m k = true -> JsMap.keys (JsMap.set m k v) = JsMap.keys m.
Proof.
  unfold JsMap.has. induction m as [|[k0 v0] m IH]; simpl; [discriminate|].
  destruct (String.eqb k0 k); simpl; auto.
  intros H. f_equal. auto.
Qed.

Lemma In_keys_set {V : Type} (m : JsMap.t V) k v x :
  In x (JsMap.keys (JsMap.set m k v)) <-> In x (JsMap.keys m) \/ x = k.
Proof.
  destruct (JsMap.has m k) eqn:E.
  - rewrite keys_set_old by assumption. apply has_true in E.
    split; [auto | intros [?| ->]; auto].
  - rewrite keys_set_new by assumption. rewrite in_app_iff. simpl.
    intuition (subst; auto).
Qed.

Lemma NoDup_snoc {A : Type} (l : list A) (x : A) :
  NoDup l -> ~ In x l -> NoDup (l ++ [x]).
Proof.
  induction l as [|y l IH]; simpl; intros Hnd Hx.
  - constructor; auto.
  - inversion Hnd; subst. constructor.
    + rewrite in_app_iff. simpl. intuition.
    + apply IH; auto.
Qed.

Lemma NoDup_keys_set {V : Type} (m : JsMap.t V) k v :
  NoDup (JsMap.keys m) -> NoDup (JsMap.keys (JsMap.set m k v)).
Proof.
  intros H. destruct (JsMap.has m k) eqn:E.
  - now rewrite keys_set_old.
  - rewrite keys_set_new by assumption. apply NoDup_snoc; auto.
    rewrite <- has_true. congruence.
Qed.

(** A [Map] built from entries has each key once. *)
Lemma NoDup_keys_of_entries {V : Type} (es : list (string * V)) :
  NoDup (JsMap.keys (JsMap.of_entries es)).
Proof.
  unfold JsMap.of_entries.
  assert (G : forall m : JsMap.t V, NoDup (JsMap.keys m) ->
            NoDup (JsMap.keys (fold_left (fun m e => JsMap.set m (fst e) (snd e)) es m))).
  { induction es as [|e es IH]; intros m Hm; simpl; auto.
    apply IH. now apply NoDup_keys_set. }
  apply G. constructor.
Qed.

Lemma get_of_In {V : Type} (m : JsMap.t V) k v :
  NoDup (JsMap.keys m) -> In (k, v) m -> JsMap.get m k = Some v.
Proof.
  induction m as [|[k0 v0] m IH]; simpl; intros Hnd Hin; [contradiction|].
  inversion Hnd as [|? ? Hnotin Hnd']; subst.
  destruct Hin as [[= -> ->]|Hin].
  - now rewrite String.eqb_refl.
  - destruct (String.eqb k0 k) eqn:E; auto.
    apply String.eqb_eq in E. subst k0. exfalso. apply Hnotin.
    apply in_map_iff. exists (k, v). auto.
Qed.

Lemma get_In {V : Type} (m : JsMap.t V) k v : JsMap.get m k = Some v -> In (k, v) m.
Proof.
  induction m as [|[k0 v0] m IH]; simpl; [discriminate|].
  destruct (String.eqb k0 k) eqn:E; auto.
  apply String.eqb_eq in E. intros [= <-]. subst. auto.
Qed.

Lemma set_has_existsb (s : list string) (x : string) :
  JsSet.has String.eqb s x = true <-> In x s.
Proof.
  unfold JsSet.has. rewrite existsb_exists. split.
  - intros [y [Hy E]]. apply String.eqb_eq in E. now subst.
  - intros H. exists x. split; auto. apply String.eqb_refl.
Qed.

Lemma In_set_add (s : list string) (x m : string) :
  In m (JsSet.add String.eqb s x) <-> In m s \/ m = x.
Proof.
  unfold JsSet.add. destruct (JsSet.has String.eqb s x) eqn:E.
  - apply set_has_existsb in E. split; [auto | intros [?| ->]; auto].
  - rewrite in_app_iff. simpl. intuition (subst; auto).
Qed.

Lemma In_set_of_list_acc (l acc : list string) (m : string) :
  In m (fold_left (JsSet.add String.eqb) l acc) <-> In m acc \/ In m l.
Proof.
  revert acc. induction l as [|x l IH]; intros acc; simpl.
  - tauto.
  - rewrite IH, In_set_add. split; intros H; intuition (subst; auto).
Qed.

Lemma In_set_of_list (l : list string) (m : string) :
  In m (JsSet.of_list String.eqb l) <-> In m l.
Proof. unfold JsSet.of_list. rewrite In_set_of_list_acc. simpl. tauto. Qed.

(** ** The URL mimetype wrapper *)

Lemma startsWith_iff (s p : string) :
  startsWith s p = true <-> exists r, s = (p ++ r)%string.
Proof.
  revert s. induction p as [|c p IH]; intros s; simpl.
  - split; [intros _; now exists s | reflexivity].
  - destruct s as [|d s].
    + split; [discriminate | intros [r Hr]; discriminate].
    + destruct (Ascii.eqb d c) eqn:E.
      * apply Ascii.eqb_eq in E. subst d. rewrite IH.
        split; intros [r Hr]; exists r; [now subst | now injection Hr].
      * apply Ascii.eqb_neq in E.
        split; [discriminate|].
        intros [r Hr]. injection Hr as Hd _. contradiction.
Qed.

Lemma slice_append (p r : string) : slice (p ++ r)%string (String.length p) = r.
Proof. induction p; simpl; auto. Qed.

Lemma append_cancel (p r r' : string) : (p ++ r)%string = (p ++ r')%string -> r = r'.
Proof. induction p; simpl; intros H; auto. injection H. auto. Qed.

(** The wrapper is the only string that unwraps to a given mimetype. *)
Lemma extractURLMimeType_Some (s r : string) :
  extractURLMimeType s = Some r <-> s = URLMimeType r.
Proof.
  unfold extractURLMimeType, URLMimeType.
  destruct (startsWith s baseMimeType) eqn:E; cbn [negb].
  - apply startsWith_iff in E as [r' ->]. rewrite slice_append.
    split; [now intros [= ->] |].
    intros H. f_equal. now apply append_cancel in H.
  - split; [discriminate|]. intros ->.
    assert (startsWith (baseMimeType ++ r)%string baseMimeType = true)
      by (apply startsWith_iff; eauto).
    congruence.
Qed.

(** C7. [extractURLMimeType] undoes [URLMimeType] on every string, and it
    returns null exactly on the strings that do not start with the prefix
    "application/x.jupyter.url; mimeType=", "text/plain" among them. *)
Theorem extractURLMimeType_roundtrip :
  (forall m : string, extractURLMimeType (URLMimeType m) = Some m) /\
  (forall s : string,
      extractURLMimeType s = None <->
      ~ exists rest, s = ("application/x.jupyter.url; mimeType=" ++ rest)%string) /\
  extractURLMimeType "text/plain" = None.
Proof.
  split; [|split].
  - intros m. now apply extractURLMimeType_Some.
  - intros s. split.
    + intros H [rest Hr].
      assert (extractURLMimeType s = Some rest) by now apply extractURLMimeType_Some.
      congruence.
    + intros H. destruct (extractURLMimeType s) as [r|] eqn:E; auto.
      apply extractURLMimeType_Some in E. exfalso. apply H. now exists r.
  - reflexivity.
Qed.

(** ** The breadth-first search *)

Section GraphSearch.

Context {V : Type} (edges : string -> JsMap.t V).

Lemma In_layer_work (frontier : list string) u t (e : V) :
  In (u, (t, e)) (layer_work edges frontier) <-> In u frontier /\ In (t, e) (edges u).
Proof.
  unfold layer_work. rewrite in_flat_map. split.
  - intros [x [Hx H]]. apply in_map_iff in H as [y [[= <- <-] Hy]]. auto.
  - intros [Hu He]. exists u. split; auto. apply in_map_iff. eauto.
Qed.

(** A layer is one pass over its work list. *)
Lemma bfs_layer_work (frontier : list string) (st : JsMap.t (Path V) * list string) :
  fold_left (visit_node edges) frontier st =
  fold_left (fun st w => visit_edge (fst w) st (snd w)) (layer_work edges frontier) st.
Proof.
  revert st. induction frontier as [|u frontier IH]; intros st; simpl; auto.
  rewrite fold_left_app, <- IH. f_equal.
  unfold visit_node. generalize (edges u) as es. clear.
  intros es. revert st. induction es as [|e es IH]; intros st; simpl; auto.
Qed.

Lemma layer_inv_start (res0 : JsMap.t (Path V)) : layer_inv res0 [] (res0, []).
Proof.
  constructor; simpl; auto.
  intros m. split; [tauto|]. intros [H1 H2]. contradiction.
Qed.

Lemma layer_inv_step (res0 : JsMap.t (Path V)) done u t (e : V) st :
  JsMap.get res0 u <> None ->
  layer_inv res0 done st ->
  layer_inv res0 (done ++ [(u, (t, e))]) (visit_edge u st (t, e)).
Proof.
  intros Hu [Hkeep Hnew Hnext Hdone]. unfold visit_edge. simpl.
  destruct (JsMap.has (fst st) t) eqn:Ht.
  - constructor; auto.
    + intros m p Hm. destruct (Hnew m p Hm) as [?|[? [u' [e' [Hin ->]]]]]; auto.
      right. split; auto. exists u', e'. split; auto. apply in_app_iff; auto.
    + intros u' t' e' Hin. apply in_app_iff in Hin as [Hin|[[= <- <- <-]|[]]]; eauto.
      apply has_true in Ht. now apply get_In_keys.
  - apply has_false in Ht.
    assert (Ht0 : JsMap.get res0 t = None).
    { destruct (JsMap.get res0 t) eqn:E; auto. apply Hkeep in E. congruence. }
    assert (Hpar : parent_path (fst st) u = parent_path res0 u).
    { unfold parent_path. destruct (JsMap.get res0 u) eqn:E; [|congruence].
      now rewrite (Hkeep _ _ E). }
    constructor; simpl.
    + intros m p Hm. rewrite get_set_other; auto. intros ->. congruence.
    + intros m p. destruct (String.eqb t m) eqn:E.
      * apply String.eqb_eq in E. subst m. rewrite get_set_same. intros [= <-].
        right. split; auto. exists u, e. rewrite Hpar. split; auto.
        apply in_app_iff. simpl. auto.
      * apply String.eqb_neq in E. rewrite get_set_other by assumption. intros Hm.
        destruct (Hnew m p Hm) as [?|[? [u' [e' [Hin ->]]]]]; auto.
        right. split; auto. exists u', e'. split; auto. apply in_app_iff; auto.
    + intros m. rewrite In_set_add, Hnext. destruct (String.eqb t m) eqn:E.
      * apply String.eqb_eq in E. subst m. rewrite get_set_same.
        split; [intros _; split; [auto|congruence] | auto].
      * apply String.eqb_neq in E. rewrite get_set_other by assumption.
        split; [intros [?| ->]; [auto | congruence] | auto].
    + intros u' t' e' Hin. destruct (String.eqb t t') eqn:E.
      * apply String.eqb_eq in E. subst t'. rewrite get_set_same. congruence.
      * apply String.eqb_neq in E. rewrite get_set_other by assumption.
        apply in_app_iff in Hin as [Hin|[[= <- <- <-]|[]]]; eauto; congruence.
Qed.

(** The state a layer ends in, when every frontier mimetype is visited. *)
Lemma layer_inv_end (res0 : JsMap.t (Path V)) (frontier : list string) :
  (forall u, In u frontier -> JsMap.get res0 u <> None) ->
  layer_inv res0 (layer_work edges frontier) (bfs_layer edges res0 frontier).
Proof.
  intros Hfr. unfold bfs_layer. rewrite bfs_layer_work.
  assert (G : forall work done st,
             (forall w, In w work -> JsMap.get res0 (fst w) <> None) ->
             layer_inv res0 done st ->
             layer_inv res0 (done ++ work)
               (fold_left (fun st w => visit_edge (fst w) st (snd w)) work st)).
  { induction work as [|[u [t e]] work IH]; intros done st Hw H; simpl.
    - now rewrite app_nil_r.
    - replace (done ++ (u, (t, e)) :: work) with ((done ++ [(u, (t, e))]) ++ work)
        by now rewrite <- app_assoc.
      apply IH; [intros w Hin; apply Hw; now right|].
      apply layer_inv_step; auto. apply (Hw (u, (t, e))). now left. }
  apply (G (layer_work edges frontier) [] (res0, [])).
  - intros [u [t e]] Hin. apply In_layer_work in Hin as [Hin _]. simpl. auto.
  - apply layer_inv_start.
Qed.

Context (initial : list string).

Lemma get_of_entries_const (l : list string) (v : Path V) (m0 : JsMap.t (Path V)) k :
  JsMap.get (fold_left (fun m e => JsMap.set m (fst e) (snd e))
                       (map (fun i => (i, v)) l) m0) k
  = if existsb (String.eqb k) l then Some v
    else JsMap.get m0 k.
Proof.
  revert m0. induction l as [|x l IH]; intros m0; simpl; auto.
  rewrite IH. destruct (existsb (String.eqb k) l); simpl.
  - now rewrite orb_true_r.
  - rewrite orb_false_r. destruct (String.eqb k x) eqn:E.
    + apply String.eqb_eq in E. subst. apply get_set_same.
    + apply String.eqb_neq in E. apply get_set_other. congruence.
Qed.

Lemma get_initial k :
  JsMap.get (JsMap.of_entries (map (fun i => (i, @nil (string * V))) initial)) k
  = if existsb (String.eqb k) initial then Some [] else None.
Proof. unfold JsMap.of_entries. now rewrite get_of_entries_const. Qed.

Lemma existsb_eqb_In (l : list string) k : existsb (String.eqb k) l = true <-> In k l.
Proof.
  rewrite existsb_exists. split.
  - intros [y [Hy E]]. apply String.eqb_eq in E. now subst.
  - intros H. exists k. split; auto. apply String.eqb_refl.
Qed.

Lemma bfs_inv_start :
  bfs_inv edges initial 0
    (JsMap.of_entries (map (fun i => (i, [])) initial)) initial.
Proof.
  constructor.
  - intros s Hs. rewrite get_initial.
    apply existsb_eqb_In in Hs. now rewrite Hs.
  - intros m p. rewrite get_initial.
    destruct (existsb (String.eqb m) initial) eqn:E; [|discriminate].
    intros [= <-]. split; auto. exists m. split; [now apply existsb_eqb_In | constructor].
  - intros m. rewrite get_initial. split.
    + intros H. apply existsb_eqb_In in H. rewrite H. eauto.
    + intros [p [H _]]. destruct (existsb (String.eqb m) initial) eqn:E; [|discriminate].
      now apply existsb_eqb_In.
  - intros u p t e _ H. inversion H.
Qed.

Lemma bfs_inv_layer k res frontier :
  bfs_inv edges initial k res frontier ->
  bfs_inv edges initial (S k)
    (fst (bfs_layer edges res frontier)) (snd (bfs_layer edges res frontier)).
Proof.
  intros [Hinit Hpath Hfr Hclosed].
  assert (Hvis : forall u, In u frontier -> JsMap.get res u <> None).
  { intros u Hu. apply Hfr in Hu as [p [Hp _]]. congruence. }
  destruct (layer_inv_end res frontier Hvis) as [Hkeep Hnew Hnext Hdone].
  set (st := bfs_layer edges res frontier) in *.
  assert (Hpath' : forall m p, JsMap.get (fst st) m = Some p ->
            (JsMap.get res m = Some p /\ List.length p <= k) \/
            (JsMap.get res m = None /\ List.length p = S k /\
             exists s, In s initial /\ edge_path edges s p m)).
  { intros m p Hm. destruct (Hnew m p Hm) as [Hold|[Hnone [u [e [Hin ->]]]]].
    - left. split; auto. now apply Hpath in Hold.
    - right. split; auto. apply In_layer_work in Hin as [Hu He].
      apply Hfr in Hu as [p0 [Hp0 Hlen]]. unfold parent_path. rewrite Hp0.
      split; [rewrite length_app; simpl; lia|].
      destruct (Hpath _ _ Hp0) as [_ [s [Hs Hp]]].
      exists s. split; auto. econstructor; eauto. }
  constructor.
  - auto.
  - intros m p Hm. destruct (Hpath' m p Hm) as [[Hold Hlen]|[_ [Hlen Hex]]].
    + split; [lia|]. now apply Hpath in Hold.
    + split; [lia | auto].
  - intros m. rewrite Hnext. split.
    + intros [Hnone Hsome]. destruct (JsMap.get (fst st) m) as [p|] eqn:E; [|congruence].
      exists p. split; auto.
      destruct (Hpath' m p E) as [[Hold _]|[_ [Hlen _]]]; [congruence | auto].
    + intros [p [Hm Hlen]].
      destruct (Hpath' m p Hm) as [[_ Hle]|[Hnone _]]; [lia|].
      split; [auto | congruence].
  - intros u p t e Hu Hlen He.
    destruct (Hpath' u p Hu) as [[Hold Hle]|[_ [Hlen' _]]]; [|lia].
    assert (Hcase : List.length p < k \/ List.length p = k) by lia.
    destruct Hcase as [Hlt|Heq].
    + destruct (Hclosed u p t e Hold Hlt He) as [q [Hq Hqlen]].
      exists q. split; auto.
    + assert (Hu' : In u frontier) by (apply Hfr; eauto).
      assert (Hw : In (u, (t, e)) (layer_work edges frontier)) by (apply In_layer_work; auto).
      apply Hdone in Hw. destruct (JsMap.get (fst st) t) as [q|] eqn:E; [|congruence].
      exists q. split; auto.
      destruct (Hpath' t q E) as [[_ Hle']|[_ [Hlen' _]]]; lia.
Qed.

(** When the frontier is empty, every chain of edges from a starting
    mimetype ends at a visited mimetype whose recorded path is no longer. *)
Lemma bfs_inv_complete k res :
  bfs_inv edges initial k res [] ->
  forall s q t, In s initial -> edge_path edges s q t ->
  exists p, JsMap.get res t = Some p /\ List.length p <= List.length q.
Proof.
  intros [Hinit Hpath Hfr Hclosed] s q t Hs Hq.
  induction Hq as [|q u e t Hq IH He].
  - exists []. split; auto.
  - destruct IH as [p [Hp Hlen]].
    assert (Hlt : List.length p < k).
    { destruct (Hpath _ _ Hp) as [Hle _].
      assert (List.length p <> k) by (intros Heq; apply (proj2 (Hfr u)); eauto).
      lia. }
    destruct (Hclosed u p t e Hp Hlt He) as [p' [Hp' Hlen']].
    exists p'. split; auto. rewrite length_app. simpl. lia.
Qed.

Lemma reachable_loop_inv fuel : forall k res frontier r,
  bfs_inv edges initial k res frontier ->
  reachable_loop fuel edges res frontier = Some r ->
  exists k', bfs_inv edges initial k' r [].
Proof.
  induction fuel as [|fuel IH]; intros k res frontier r Hinv; simpl.
  - destruct frontier; [|discriminate]. intros [= <-]. eauto.
  - destruct frontier as [|u frontier]; [intros [= <-]; eauto|].
    apply IH with (k := S k). now apply bfs_inv_layer.
Qed.

(** The reachability map holds, for each mimetype it has, a chain of edges
    from a starting mimetype that no other chain beats; and it has every
    mimetype that some chain reaches. *)
Lemma reachable_shortest fuel r :
  reachable fuel edges initial = Some r ->
  (forall t p, JsMap.get r t = Some p ->
     (exists s, In s initial /\ edge_path edges s p t) /\
     (forall s q, In s initial -> edge_path edges s q t ->
        List.length p <= List.length q)) /\
  (forall s q t, In s initial -> edge_path edges s q t ->
     exists p, JsMap.get r t = Some p /\ List.length p <= List.length q) /\
  (forall s, In s initial -> JsMap.get r s = Some []).
Proof.
  unfold reachable. intros H.
  destruct (reachable_loop_inv _ _ _ _ _ bfs_inv_start H) as [k Hinv].
  pose proof (bfs_inv_complete _ _ Hinv) as Hc.
  split; [|split]; auto.
  - intros t p Hp. split.
    + now apply (inv_path _ _ _ _ _ Hinv).
    + intros s q Hs Hq. destruct (Hc s q t Hs Hq) as [p' [Hp' Hlen]]. congruence.
  - apply (inv_init _ _ _ _ _ Hinv).
Qed.

(** *** The search finishes on a finite graph *)

Lemma layer_size_step universe n0 st u t (e : V) :
  In t universe ->
  layer_size universe n0 st -> layer_size universe n0 (visit_edge u st (t, e)).
Proof.
  intros Ht (Hnd & Hin & Hnext & Hlen). unfold visit_edge. simpl.
  destruct (JsMap.has (fst st) t) eqn:E; [repeat split; auto|].
  assert (Hfresh : ~ In t (JsMap.keys (fst st))) by (rewrite <- has_true; congruence).
  assert (Hadd : JsSet.add String.eqb (snd st) t = snd st ++ [t]).
  { unfold JsSet.add. destruct (JsSet.has String.eqb (snd st) t) eqn:E'; auto.
    apply set_has_existsb in E'. apply Hnext in E'. contradiction. }
  unfold layer_size. simpl. rewrite Hadd, keys_set_new by assumption.
  repeat split.
  - now apply NoDup_snoc.
  - intros x Hx. apply in_app_iff in Hx as [Hx|[<-|[]]]; auto.
  - intros x Hx. apply in_app_iff in Hx as [Hx|[<-|[]]]; apply in_app_iff; simpl; auto.
  - rewrite !length_app. simpl. lia.
Qed.

Lemma layer_size_end universe res frontier :
  closed_under edges universe ->
  NoDup (JsMap.keys res) -> incl (JsMap.keys res) universe ->
  incl frontier (JsMap.keys res) ->
  layer_size universe (List.length (JsMap.keys res)) (bfs_layer edges res frontier).
Proof.
  intros Hcl Hnd Hin Hfr. unfold bfs_layer. rewrite bfs_layer_work.
  assert (G : forall work (st : JsMap.t (Path V) * list string),
             (forall w, In w work -> In (fst (snd w)) universe) ->
             layer_size universe (List.length (JsMap.keys res)) st ->
             layer_size universe (List.length (JsMap.keys res))
               (fold_left (fun st w => visit_edge (fst w) st (snd w)) work st)).
  { induction work as [|[u [t e]] work IH]; intros st Hw H; simpl; auto.
    apply IH; [intros w Hin'; apply Hw; now right|].
    apply layer_size_step; auto. apply (Hw (u, (t, e))). now left. }
  apply G.
  - intros [u [t e]] Hw. apply In_layer_work in Hw as [Hu He]. simpl.
    apply (Hcl u t e); auto.
  - repeat split; simpl; auto. intros x [].
Qed.

Lemma reachable_loop_total universe :
  closed_under edges universe ->
  forall fuel res frontier,
  NoDup (JsMap.keys res) -> incl (JsMap.keys res) universe ->
  incl frontier (JsMap.keys res) ->
  List.length universe - List.length (JsMap.keys res) < fuel ->
  exists r, reachable_loop fuel edges res frontier = Some r.
Proof.
  intros Hcl. induction fuel as [|fuel IH]; intros res frontier Hnd Hin Hfr Hfuel;
    [lia|].
  simpl. destruct frontier as [|u frontier]; [eauto|].
  destruct (layer_size_end universe res (u :: frontier) Hcl Hnd Hin Hfr)
    as (Hnd' & Hin' & Hnext & Hlen).
  destruct (snd (bfs_layer edges res (u :: frontier))) as [|x next] eqn:E.
  - destruct fuel; simpl; eauto.
  - rewrite <- E in *. apply IH; auto.
    pose proof (NoDup_incl_length Hnd' Hin') as Hle.
    rewrite E in Hlen. simpl in Hlen. lia.
Qed.

(** On a graph that a finite universe bounds, the search finishes within
    as many layers as the universe has mimetypes, plus one. *)
Lemma reachable_total universe fuel :
  closed_under edges universe -> incl initial universe ->
  List.length universe < fuel ->
  exists r, reachable fuel edges initial = Some r.
Proof.
  intros Hcl Hin Hfuel. unfold reachable.
  apply (reachable_loop_total universe Hcl).
  - apply NoDup_keys_of_entries.
  - intros k Hk. apply get_In_keys in Hk. rewrite get_initial in Hk.
    destruct (existsb (String.eqb k) initial) eqn:E; [|contradiction].
    apply Hin. now apply existsb_eqb_In.
  - intros k Hk. apply get_In_keys. rewrite get_initial.
    apply existsb_eqb_In in Hk. rewrite Hk. discriminate.
  - lia.
Qed.

End GraphSearch.

(** ** The URL objects of the source datasets *)

Lemma url_set_prefix (l acc : list URL) :
  exists ext, fold_left (JsSet.add same_url) l acc = acc ++ ext.
Proof.
  revert acc. induction l as [|x l IH]; intros acc; simpl.
  - exists []. now rewrite app_nil_r.
  - unfold JsSet.add at 2. destruct (JsSet.has same_url acc x); auto.
    destruct (IH (acc ++ [x])) as [ext ->]. exists ([x] ++ ext). now rewrite app_assoc.
Qed.

Lemma url_set_has (l acc : list URL) x :
  In x l \/ JsSet.has same_url acc x = true ->
  JsSet.has same_url (fold_left (JsSet.add same_url) l acc) x = true.
Proof.
  revert acc. induction l as [|y l IH]; intros acc; simpl.
  - intros [[]|H]; auto.
  - intros H. apply IH. unfold JsSet.add.
    destruct (JsSet.has same_url acc y) eqn:E.
    + destruct H as [[->|H]|H]; auto.
    + unfold JsSet.has in *. rewrite existsb_app. simpl.
      destruct H as [[->|H]|H]; auto.
      * right. unfold same_url. rewrite Nat.eqb_refl. simpl. apply orb_true_r.
      * right. rewrite H. reflexivity.
Qed.

Lemma url_set_same (l : list URL) u :
  (forall x, In x l -> url_ref x = url_ref u) ->
  fold_left (JsSet.add same_url) l [u] = [u].
Proof.
  induction l as [|x l IH]; intros H; simpl; auto.
  unfold JsSet.add at 2. unfold JsSet.has. simpl. unfold same_url at 2.
  rewrite (H x) by now left. rewrite Nat.eqb_refl. simpl.
  apply IH. intros y Hy. apply H. now right.
Qed.

(** The set of URL objects has one element exactly when the list is not
    empty and all of it is one object. *)
Lemma url_set_single (l : list URL) u :
  JsSet.of_list same_url l = [u] <->
  exists l', l = u :: l' /\ forall x, In x l' -> url_ref x = url_ref u.
Proof.
  unfold JsSet.of_list. split.
  - destruct l as [|x l]; simpl; [discriminate|].
    unfold JsSet.add at 2. simpl. intros H.
    destruct (url_set_prefix l [x]) as [ext Hext].
    rewrite H in Hext. injection Hext as -> Hnil.
    exists l. split; auto. intros y Hy.
    pose proof (url_set_has l [x] y (or_introl Hy)) as Hhas.
    rewrite H in Hhas. unfold JsSet.has in Hhas. simpl in Hhas.
    rewrite orb_false_r in Hhas. now apply Nat.eqb_eq in Hhas.
  - intros [l' [-> H]]. simpl. unfold JsSet.add at 2. simpl.
    now apply url_set_same.
Qed.

Lemma nodup_single (l : list nat) :
  List.length (nodup Nat.eq_dec l) = 1 <->
  exists r l', l = r :: l' /\ forall x, In x l' -> x = r.
Proof.
  split.
  - destruct l as [|r l']; [discriminate|]. intros H.
    destruct (nodup Nat.eq_dec (r :: l')) as [|z [|? ?]] eqn:E; try discriminate.
    assert (Hall : forall x, In x (r :: l') -> x = z).
    { intros x Hx. apply (nodup_In Nat.eq_dec) in Hx. rewrite E in Hx.
      destruct Hx as [->|[]]. reflexivity. }
    exists r, l'. split; auto. intros x Hx.
    rewrite (Hall x) by now right. symmetry. apply Hall. now left.
  - intros [r [l' [-> H]]].
    pose proof (NoDup_nodup Nat.eq_dec (r :: l')) as Hnd.
    assert (Hall : forall x, In x (nodup Nat.eq_dec (r :: l')) -> x = r).
    { intros x Hx. apply nodup_In in Hx. destruct Hx as [->|Hx]; auto. }
    assert (Hr : In r (nodup Nat.eq_dec (r :: l'))) by (apply nodup_In; now left).
    destruct (nodup Nat.eq_dec (r :: l')) as [|a [|b n]]; auto.
    + destruct Hr.
    + exfalso. inversion Hnd as [|? ? Hnotin _]; subst. apply Hnotin.
      rewrite (Hall a) by now left. rewrite (Hall b) at 1 by (right; now left).
      now left.
Qed.

Section Conversion.

Context {Any : Type} (undefined : Any).

Lemma collect_split (ds : list (@Dataset Any)) (us : list URL) (m : JsMap.t Any) :
  fold_left
    (fun acc d => (JsSet.add same_url (fst acc) (url d),
                   JsMap.set (snd acc) (mimeType d) (data d)))
    ds (us, m)
  = (fold_left (JsSet.add same_url) (map url ds) us,
     fold_left (fun m d => JsMap.set m (mimeType d) (data d)) ds m).
Proof.
  revert us m. induction ds as [|d ds IH]; intros us m; simpl; auto.
Qed.

Lemma collect_urls (ds : list (@Dataset Any)) :
  fst (collect ds) = JsSet.of_list same_url (map url ds).
Proof. unfold collect. now rewrite collect_split. Qed.

Lemma collect_keys (ds : list (@Dataset Any)) s :
  In s (JsMap.keys (snd (collect ds))) <-> In s (map mimeType ds).
Proof.
  unfold collect. rewrite collect_split. simpl.
  assert (G : forall m : JsMap.t Any,
            In s (JsMap.keys (fold_left (fun m d => JsMap.set m (mimeType d) (data d)) ds m))
            <-> In s (JsMap.keys m) \/ In s (map mimeType ds)).
  { induction ds as [|d ds IH]; intros m; simpl; [tauto|].
    rewrite IH, In_keys_set. intuition. }
  rewrite G. simpl. tauto.
Qed.

(** The datasets reference one URL object, [u]. *)
Lemma collect_one_url (ds : list (@Dataset Any)) u :
  fst (collect ds) = [u] <->
  exists d ds', ds = d :: ds' /\ url d = u /\
    forall x, In x ds' -> url_ref (url x) = url_ref u.
Proof.
  rewrite collect_urls, url_set_single. split.
  - intros [l' [Hl H]]. destruct ds as [|d ds']; [discriminate|].
    simpl in Hl. injection Hl as Hu <-. exists d, ds'. repeat split; auto.
    intros x Hx. apply H. now apply in_map.
  - intros [d [ds' [-> [<- H]]]]. exists (map url ds'). split; auto.
    intros x Hx. apply in_map_iff in Hx as [y [<- Hy]]. auto.
Qed.

Lemma one_url_object (ds : list (@Dataset Any)) :
  (exists u, fst (collect ds) = [u]) <-> List.length (url_objects ds) = 1.
Proof.
  unfold url_objects. rewrite nodup_single. split.
  - intros [u Hu]. apply collect_one_url in Hu as [d [ds' [-> [<- H]]]].
    exists (url_ref (url d)), (map (fun d => url_ref (url d)) ds'). split; auto.
    intros x Hx. apply in_map_iff in Hx as [y [<- Hy]]. auto.
  - intros [r [l' [Hl H]]]. destruct ds as [|d ds']; [discriminate|].
    simpl in Hl. injection Hl as <- <-. exists (url d). apply collect_one_url.
    exists d, ds'. repeat split; auto. intros x Hx. apply H.
    apply in_map_iff. eauto.
Qed.

Lemma convert_one_url fuel (reg : @ConverterRegistry Any) (ds : list (@Dataset Any)) target u :
  fst (collect ds) = [u] ->
  convert undefined fuel reg ds target =
  match _reachable fuel reg (JsMap.keys (snd (collect ds))) with
  | None => None
  | Some r => Some (walk undefined ds u (snd (collect ds))
                      (expandPath target (JsMap.get r target)))
  end.
Proof. intros H. unfold convert. now rewrite H. Qed.

Lemma convert_not_one_url fuel (reg : @ConverterRegistry Any) (ds : list (@Dataset Any)) target :
  (forall u, fst (collect ds) <> [u]) ->
  convert undefined fuel reg ds target =
  Some {| trace := []; outcome := Failed inconsistent_source |}.
Proof.
  intros H. unfold convert. destruct (fst (collect ds)) as [|u [|u' us]]; auto.
  now destruct (H u).
Qed.

(** The loop of [convert] fails with a TypeError or with the rejection of
    a transform, never with an [Error] of its own. *)
Lemma walk_no_error (ds : list (@Dataset Any)) u steps : forall datas message,
  outcome (walk undefined ds u datas steps) <> Failed (ThrownError message).
Proof.
  induction steps as [|[[from f] to] steps IH]; intros datas message; simpl;
    [discriminate|].
  destruct (falsy from); simpl; auto.
  destruct f as [f|]; simpl; [|discriminate].
  destruct (f _); simpl; [auto | discriminate].
Qed.

(** C3. When the source datasets reference more than one URL object,
    [convert] fails with the inconsistent-source error, and its consumer
    has seen nothing before that: no value was yielded and no transform
    was called. *)
Theorem convert_several_urls_fails fuel (reg : @ConverterRegistry Any)
  (ds : list (@Dataset Any)) (target : string) :
  (exists d1 d2, In d1 ds /\ In d2 ds /\ url_ref (url d1) <> url_ref (url d2)) ->
  exists run,
    convert undefined fuel reg ds target = Some run /\
    outcome run = Failed inconsistent_source /\
    trace run = [] /\ yields run = [] /\ invocations run = [].
Proof.
  intros [d1 [d2 [H1 [H2 Hne]]]].
  exists {| trace := []; outcome := Failed inconsistent_source |}.
  split; [|repeat split].
  apply convert_not_one_url. intros u Hu.
  apply collect_one_url in Hu as [d [ds' [-> [<- H]]]].
  apply Hne.
  assert (G : forall x, In x (d :: ds') -> url_ref (url x) = url_ref (url d)).
  { intros x [->|Hx]; auto. }
  now rewrite (G d1), (G d2).
Qed.

(** C10. [convert] fails with the inconsistent-source error exactly when
    the source datasets do not reference exactly one URL object.  No
    dataset at all is such a case, and so are two datasets whose URL
    objects differ though they spell the same address. *)
Theorem convert_inconsistent_source_iff fuel (reg : @ConverterRegistry Any) (target : string) :
  (forall ds : list (@Dataset Any),
     (exists run, convert undefined fuel reg ds target = Some run /\
                  outcome run = Failed inconsistent_source)
     <-> List.length (url_objects ds) <> 1) /\
  convert undefined fuel reg [] target
    = Some {| trace := []; outcome := Failed inconsistent_source |} /\
  (forall (ref1 ref2 : nat) (address scheme m1 m2 : string) (x1 x2 : Any),
     ref1 <> ref2 ->
     convert undefined fuel reg
       [mkDataset m1 (mkURL ref1 address scheme) x1;
        mkDataset m2 (mkURL ref2 address scheme) x2] target
     = Some {| trace := []; outcome := Failed inconsistent_source |}).
Proof.
  split; [|split].
  - intros ds. rewrite <- one_url_object. split.
    + intros [run [Hrun Hout]] [u Hu].
      rewrite (convert_one_url _ _ _ _ _ Hu) in Hrun.
      destruct (_reachable _ _ _); [|discriminate].
      injection Hrun as <-. now apply walk_no_error in Hout.
    + intros H. eexists. split; [apply convert_not_one_url|reflexivity].
      intros u Hu. apply H. eauto.
  - reflexivity.
  - intros ref1 ref2 address scheme m1 m2 x1 x2 Hne.
    unfold convert, collect. simpl. unfold JsSet.add, JsSet.has. simpl.
    unfold same_url. simpl. apply Nat.eqb_neq in Hne.
    rewrite Nat.eqb_sym, Hne. reflexivity.
Qed.

(** ** The path [convert] walks *)

(** The search [convert] and [listTargetMimeTypes] run: its paths are
    chains of edges of the registry's graph from a source mimetype, none
    longer than any other such chain, and it misses no mimetype that has
    one. *)
Lemma _reachable_shortest fuel (reg : @ConverterRegistry Any) (srcs : list string) r :
  _reachable fuel reg srcs = Some r ->
  (forall t p, JsMap.get r t = Some p ->
     (exists s, In s srcs /\ edge_path (graph_of reg) s p t) /\
     (forall s q, In s srcs -> edge_path (graph_of reg) s q t ->
        List.length p <= List.length q)) /\
  (forall s q t, In s srcs -> edge_path (graph_of reg) s q t ->
     exists p, JsMap.get r t = Some p /\ List.length p <= List.length q) /\
  (forall s, In s srcs -> JsMap.get r s = Some []).
Proof.
  unfold _reachable. intros H.
  destruct (reachable_shortest _ _ _ _ H) as (Hs & Hc & Hi).
  split; [|split].
  - intros t p Hp. destruct (Hs t p Hp) as [[s [Hin Hpath]] Hmin]. split.
    + exists s. split; auto. now apply (proj1 (In_set_of_list _ _)).
    + intros s' q Hs' Hq. apply (Hmin s' q); auto. now apply (proj2 (In_set_of_list _ _)).
  - intros s q t Hin Hq. apply (Hc s q t); auto. now apply (proj2 (In_set_of_list _ _)).
  - intros s Hin. apply Hi. now apply (proj2 (In_set_of_list _ _)).
Qed.

Lemma _reachable_total fuel (reg : @ConverterRegistry Any) (srcs universe : list string) :
  closed_under (graph_of reg) universe -> incl srcs universe ->
  List.length universe < fuel ->
  exists r, _reachable fuel reg srcs = Some r.
Proof.
  intros Hcl Hin Hfuel. unfold _reachable.
  apply (reachable_total _ _ universe); auto.
  intros s Hs. apply Hin. now apply (proj1 (In_set_of_list _ _)).
Qed.

(** C5. For datasets that share one URL object and a target that no chain
    of converters reaches from their mimetypes, [convert] yields nothing
    and completes without an error, once the search has the fuel that a
    finite mimetype graph needs. *)
Theorem convert_unreachable_is_empty fuel (reg : @ConverterRegistry Any)
  (ds : list (@Dataset Any)) (target : string) (universe : list string) :
  List.length (url_objects ds) = 1 ->
  closed_under (graph_of reg) universe ->
  incl (map mimeType ds) universe ->
  List.length universe < fuel ->
  (forall s q, In s (map mimeType ds) -> ~ edge_path (graph_of reg) s q target) ->
  convert undefined fuel reg ds target = Some {| trace := []; outcome := Completed |}.
Proof.
  intros Hone Hcl Hin Hfuel Hun.
  apply one_url_object in Hone as [u Hu].
  rewrite (convert_one_url _ _ _ _ _ Hu).
  destruct (_reachable_total fuel reg (JsMap.keys (snd (collect ds))) universe)
    as [r Hr]; auto.
  { intros s Hs. apply Hin. now apply (proj1 (collect_keys _ _)). }
  rewrite Hr. destruct (JsMap.get r target) as [p|] eqn:E; [|reflexivity].
  destruct (_reachable_shortest _ _ _ _ Hr) as (Hs & _).
  destruct (Hs target p E) as [[s [Hsin Hpath]] _].
  exfalso. apply (Hun s p); auto. now apply (proj1 (collect_keys _ _)).
Qed.

(** A target that is among the source mimetypes: [convert] yields the
    first source dataset of that mimetype and calls nothing. *)
Lemma convert_source_mimetype fuel (reg : @ConverterRegistry Any)
  (ds : list (@Dataset Any)) (target : string) (universe : list string) :
  List.length (url_objects ds) = 1 ->
  In target (map mimeType ds) ->
  closed_under (graph_of reg) universe ->
  incl (map mimeType ds) universe ->
  List.length universe < fuel ->
  convert undefined fuel reg ds target =
  Some {| trace := [Yielded (find (fun x => String.eqb (mimeType x) target) ds)];
          outcome := Completed |}.
Proof.
  intros Hone Ht Hcl Hin Hfuel.
  apply one_url_object in Hone as [u Hu].
  rewrite (convert_one_url _ _ _ _ _ Hu).
  destruct (_reachable_total fuel reg (JsMap.keys (snd (collect ds))) universe)
    as [r Hr]; auto.
  { intros s Hs. apply Hin. now apply (proj1 (collect_keys _ _)). }
  rewrite Hr. destruct (_reachable_shortest _ _ _ _ Hr) as (_ & _ & Hi).
  rewrite (Hi target) by now apply (proj2 (collect_keys _ _)).
  reflexivity.
Qed.

(** C4. Converting one dataset to the mimetype it already has yields that
    dataset and nothing else, and calls no transform, whatever converters
    are registered (the search finishing, as it does on a finite graph). *)
Theorem convert_identity_path fuel (reg : @ConverterRegistry Any)
  (d : @Dataset Any) (universe : list string) :
  closed_under (graph_of reg) universe ->
  In (mimeType d) universe ->
  List.length universe < fuel ->
  exists run,
    convert undefined fuel reg [d] (mimeType d) = Some run /\
    outcome run = Completed /\
    yields run = [Some d] /\
    invocations run = [].
Proof.
  intros Hcl Hin Hfuel.
  exists {| trace := [Yielded (Some d)]; outcome := Completed |}.
  split; [|repeat split].
  rewrite (convert_source_mimetype fuel reg [d] (mimeType d) universe); auto.
  - simpl. now rewrite String.eqb_refl.
  - simpl. now left.
  - intros s [<-|[]]. auto.
Qed.

Lemma edge_path_short {V : Type} (edges : string -> JsMap.t V) s (p : Path V) t :
  edge_path edges s p t -> List.length p <= 1 ->
  (p = [] /\ s = t) \/ (exists e, p = [(s, e)] /\ In (t, e) (edges s)).
Proof.
  intros Hp Hlen. destruct Hp as [|p u e t Hp He]; [now left|].
  right. rewrite length_app in Hlen. simpl in Hlen.
  destruct p as [|x p]; [|simpl in Hlen; lia].
  inversion Hp as [Heq|p' u' e' t' _ _ Heq]; subst.
  - exists e. auto.
  - now destruct p'.
Qed.

Lemma graph_keys_NoDup (reg : @ConverterRegistry Any) m :
  NoDup (JsMap.keys (graph_of reg m)).
Proof.
  unfold graph_of, composeManyConverters.
  assert (G : forall (cs : list (@Converter Any Any Any)) (acc : @Converter Any Any Any),
            (forall m, NoDup (JsMap.keys (acc m))) ->
            forall m, NoDup (JsMap.keys (fold_left composeConverters cs acc m))).
  { induction cs as [|c cs IH]; intros acc Hacc; simpl; auto.
    apply IH. intros m'. apply NoDup_keys_of_entries. }
  apply G. intros m'. constructor.
Qed.

(** A converter straight from the one source mimetype to the target is
    the path the search records. *)
Lemma _reachable_direct_edge fuel (reg : @ConverterRegistry Any) s t e r :
  _reachable fuel reg [s] = Some r -> s <> t ->
  JsMap.get (graph_of reg s) t = Some e ->
  JsMap.get r t = Some [(s, e)].
Proof.
  intros Hr Hne He.
  destruct (_reachable_shortest _ _ _ _ Hr) as (Hs & Hc & _).
  assert (Hq : edge_path (graph_of reg) s ([] ++ [(s, e)]) t).
  { econstructor; [constructor | now apply get_In]. }
  destruct (Hc s _ t (or_introl eq_refl) Hq) as [p [Hp Hlen]].
  rewrite Hp. f_equal.
  destruct (Hs t p Hp) as [[s' [[<-|[]] Hpath]] _].
  destruct (edge_path_short _ _ _ _ Hpath Hlen) as [[_ Heq]|[e' [-> Hin]]];
    [contradiction|].
  apply get_of_In in Hin; [|apply graph_keys_NoDup]. congruence.
Qed.

Lemma staticConverter_apply (src tgt : string) (f : @Transform Any Any Any) (m : string) :
  staticConverter src tgt f m = if String.eqb m src then [(tgt, f)] else [].
Proof.
  unfold staticConverter, seperateConverter, singleConverter.
  destruct (String.eqb m src); reflexivity.
Qed.

(** The graph of converters A->B, B->C and A->C, in whichever order they
    were registered. *)
Lemma three_converters_graph (A B C : string) (f g h : Transform Any Any) order :
  A <> B -> B <> C -> A <> C ->
  In order (orders3 (mkConverter 1 (staticConverter A B f))
                    (mkConverter 2 (staticConverter B C g))
                    (mkConverter 3 (staticConverter A C h))) ->
  JsMap.get (graph_of (register_all new_registry order) A) C = Some h /\
  closed_under (graph_of (register_all new_registry order)) [A; B; C].
Proof.
  intros HAB HBC HAC Hord.
  assert (EAB : String.eqb A B = false) by now apply String.eqb_neq.
  assert (EBA : String.eqb B A = false) by (apply String.eqb_neq; congruence).
  assert (EBC : String.eqb B C = false) by now apply String.eqb_neq.
  assert (ECB : String.eqb C B = false) by (apply String.eqb_neq; congruence).
  assert (ECA : String.eqb C A = false) by (apply String.eqb_neq; congruence).
  assert (G : forall m, graph_of (register_all new_registry order) m =
     if String.eqb m A then graph_of (register_all new_registry order) A
     else if String.eqb m B then [(C, g)] else []).
  { intros m. destruct (String.eqb m A) eqn:E1.
    - apply String.eqb_eq in E1. now subst.
    - simpl in Hord.
      destruct Hord as [<-|[<-|[<-|[<-|[<-|[<-|[]]]]]]];
      unfold graph_of, register_all, composeManyConverters, composeConverters; simpl;
      rewrite !staticConverter_apply, ?E1; destruct (String.eqb m B); reflexivity. }
  assert (GA : graph_of (register_all new_registry order) A = [(B, f); (C, h)] \/
               graph_of (register_all new_registry order) A = [(C, h); (B, f)]).
  { simpl in Hord.
    destruct Hord as [<-|[<-|[<-|[<-|[<-|[<-|[]]]]]]];
    unfold graph_of, register_all, composeManyConverters, composeConverters; simpl;
    rewrite !staticConverter_apply, ?String.eqb_refl, ?EAB; simpl;
    unfold JsMap.of_entries; simpl; rewrite ?String.eqb_refl, ?EBC, ?ECB; simpl;
    rewrite ?String.eqb_refl, ?EBC, ?ECB; auto. }
  split.
  - destruct GA as [-> | ->]; simpl; now rewrite ?EBC, String.eqb_refl.
  - intros u t e Hu Hin. rewrite G in Hin. simpl.
    destruct Hu as [<-|[<-|[<-|[]]]].
    + rewrite String.eqb_refl in Hin.
      destruct GA as [GA|GA]; rewrite GA in Hin; simpl in Hin;
        destruct Hin as [[= <- _]|[[= <- _]|[]]]; auto.
    + rewrite EBA, String.eqb_refl in Hin. destruct Hin as [[= <- _]|[]]. auto.
    + rewrite ECA, ECB in Hin. destruct Hin.
Qed.

(** C1. The path the registry computes for a target is a chain of
    converter edges from a source mimetype with the fewest hops among all
    such chains, and every target that has a chain gets one (the search
    finishing, as it does on a finite graph).  With A->B, B->C and A->C
    registered, in any order, converting a dataset of mimetype A to C
    yields two elements, the source dataset and then the C dataset, through
    the direct converter. *)
Theorem convert_path_is_shortest :
  (forall fuel (reg : @ConverterRegistry Any) srcs r target p,
     _reachable fuel reg srcs = Some r -> JsMap.get r target = Some p ->
     (exists s, In s srcs /\ edge_path (graph_of reg) s p target) /\
     (forall s q, In s srcs -> edge_path (graph_of reg) s q target ->
        List.length p <= List.length q)) /\
  (forall fuel (reg : @ConverterRegistry Any) srcs universe,
     closed_under (graph_of reg) universe -> incl srcs universe ->
     List.length universe < fuel ->
     exists r, _reachable fuel reg srcs = Some r /\
       forall s q t, In s srcs -> edge_path (graph_of reg) s q t ->
         exists p, JsMap.get r t = Some p /\ List.length p <= List.length q) /\
  (forall (A B C : string) (f g h : Transform Any Any) order (u : URL) (a c : Any) fuel,
     A <> B -> B <> C -> A <> C -> A <> "" ->
     In order (orders3 (mkConverter 1 (staticConverter A B f))
                       (mkConverter 2 (staticConverter B C g))
                       (mkConverter 3 (staticConverter A C h))) ->
     h a = Resolved c -> 3 < fuel ->
     exists run,
       convert undefined fuel (register_all new_registry order) [mkDataset A u a] C
         = Some run /\
       outcome run = Completed /\
       yields run = [Some (mkDataset A u a); Some (mkDataset C u c)] /\
       invocations run = [(A, C, a)]).
Proof.
  split; [|split].
  - intros fuel reg srcs r target p Hr Hp.
    destruct (_reachable_shortest _ _ _ _ Hr) as (Hs & _). auto.
  - intros fuel reg srcs universe Hcl Hin Hfuel.
    destruct (_reachable_total fuel reg srcs universe Hcl Hin Hfuel) as [r Hr].
    exists r. split; auto.
    destruct (_reachable_shortest _ _ _ _ Hr) as (_ & Hc & _). auto.
  - intros A B C f g h order u a c fuel HAB HBC HAC HA Hord Hh Hfuel.
    destruct (three_converters_graph A B C f g h order HAB HBC HAC Hord) as [Hdirect Hcl].
    set (reg := register_all new_registry order) in *.
    destruct (_reachable_total fuel reg [A] [A; B; C] Hcl) as [r Hr];
      [intros x [<-|[]]; now left | exact Hfuel |].
    pose proof (_reachable_direct_edge _ _ _ _ _ _ Hr HAC Hdirect) as Hp.
    exists {| trace := [Yielded (Some (mkDataset A u a)); Invoked A C a;
                        Yielded (Some (mkDataset C u c))];
              outcome := Completed |}.
    split; [|repeat split].
    unfold convert, collect. simpl. change (JsSet.of_list String.eqb [A]) with [A] in *.
    fold reg. rewrite Hr, Hp. simpl.
    apply String.eqb_neq in HA. rewrite String.eqb_refl, HA.
    unfold datas_get. simpl. rewrite String.eqb_refl, Hh. reflexivity.
Qed.

(** ** A transform that rejects *)

(** Steps that the loop gets through leave their trace, and the loop goes
    on from the data map they leave. *)
Lemma walk_app (ds : list (@Dataset Any)) u pre post : forall datas datas',
  datas_after undefined datas pre = Some datas' ->
  walk undefined ds u datas (pre ++ post) =
  {| trace := trace (walk undefined ds u datas pre)
              ++ trace (walk undefined ds u datas' post);
     outcome := outcome (walk undefined ds u datas' post) |}.
Proof.
  induction pre as [|[[from f] to] pre IH]; intros datas datas'; simpl.
  - intros [= <-]. now destruct (walk undefined ds u datas post).
  - destruct (falsy from).
    + intros H. rewrite (IH _ _ H). reflexivity.
    + destruct f as [f|]; [|discriminate].
      destruct (f _); [|discriminate].
      intros H. rewrite (IH _ _ H). reflexivity.
Qed.

(** A hop that leaves the empty mimetype is taken for the first entry of
    the path, since [!initialMimeType] holds of the empty string too: its
    transform is not called and a source dataset is looked up instead. *)
Lemma walk_from_empty_mimetype (ds : list (@Dataset Any)) u datas
  (f : @Transform Any Any Any) to rest :
  walk undefined ds u datas ((Some "", Some f, to) :: rest) =
  and_then (Yielded (find (fun dataset => String.eqb (mimeType dataset) to) ds))
           (walk undefined ds u datas rest).
Proof. reflexivity. Qed.

(** The loop at a hop whose transform rejects. *)
Lemma walk_rejected (ds : list (@Dataset Any)) u datas from
  (f : @Transform Any Any Any) to post reason :
  from <> "" ->
  f (datas_get undefined datas from) = Rejected reason ->
  walk undefined ds u datas ((Some from, Some f, to) :: post) =
  {| trace := [Invoked from to (datas_get undefined datas from)];
     outcome := Failed (Rejection reason) |}.
Proof.
  intros Hne Hf. simpl. apply String.eqb_neq in Hne. rewrite Hne, Hf. reflexivity.
Qed.

Lemma yields_app_trace (t1 t2 : list (@Event Any)) o1 o2 o :
  yields {| trace := t1 ++ t2; outcome := o |} =
  yields {| trace := t1; outcome := o1 |} ++ yields {| trace := t2; outcome := o2 |}.
Proof. unfold yields. simpl. apply flat_map_app. Qed.

Lemma invocations_app_trace (t1 t2 : list (@Event Any)) o1 o2 o :
  invocations {| trace := t1 ++ t2; outcome := o |} =
  invocations {| trace := t1; outcome := o1 |}
  ++ invocations {| trace := t2; outcome := o2 |}.
Proof. unfold invocations. simpl. apply flat_map_app. Qed.

(** The graph of converters A->B, B->C, C->D. *)
Lemma chain_graph (A B C D : string) (f1 f2 f3 : Transform Any Any) m :
  A <> B -> A <> C -> B <> C ->
  graph_of (register_all new_registry
              [mkConverter 1 (staticConverter A B f1);
               mkConverter 2 (staticConverter B C f2);
               mkConverter 3 (staticConverter C D f3)]) m
  = if String.eqb m A then [(B, f1)]
    else if String.eqb m B then [(C, f2)]
    else if String.eqb m C then [(D, f3)] else [].
Proof.
  intros HAB HAC HBC.
  unfold graph_of, register_all, composeManyConverters, composeConverters. simpl.
  rewrite !staticConverter_apply.
  destruct (String.eqb m A) eqn:E1.
  { apply String.eqb_eq in E1. subst m.
    apply String.eqb_neq in HAB, HAC. now rewrite HAB, HAC. }
  destruct (String.eqb m B) eqn:E2.
  { apply String.eqb_eq in E2. subst m.
    apply String.eqb_neq in HBC. now rewrite HBC. }
  destruct (String.eqb m C); reflexivity.
Qed.

(** In that graph one chain leads from A to D. *)
Lemma chain_path (A B C D : string) (f1 f2 f3 : Transform Any Any) p :
  A <> B -> A <> C -> A <> D -> B <> C -> B <> D -> C <> D ->
  edge_path (graph_of (register_all new_registry
              [mkConverter 1 (staticConverter A B f1);
               mkConverter 2 (staticConverter B C f2);
               mkConverter 3 (staticConverter C D f3)])) A p D <->
  p = [(A, f1); (B, f2); (C, f3)].
Proof.
  intros HAB HAC HAD HBC HBD HCD.
  set (G := graph_of _).
  assert (Hedge : forall u t e, In (t, e) (G u) <->
            (u = A /\ t = B /\ e = f1) \/ (u = B /\ t = C /\ e = f2) \/
            (u = C /\ t = D /\ e = f3)).
  { intros u t e. unfold G. rewrite chain_graph by assumption.
    destruct (String.eqb u A) eqn:E1; [apply String.eqb_eq in E1|apply String.eqb_neq in E1].
    { subst u. simpl. split.
      - intros [[= <- <-]|[]]. auto.
      - intros [(_ & -> & ->)|[(H & _)|(H & _)]]; auto; congruence. }
    destruct (String.eqb u B) eqn:E2; [apply String.eqb_eq in E2|apply String.eqb_neq in E2].
    { subst u. simpl. split.
      - intros [[= <- <-]|[]]. auto.
      - intros [(H & _)|[(_ & -> & ->)|(H & _)]]; auto; congruence. }
    destruct (String.eqb u C) eqn:E3; [apply String.eqb_eq in E3|apply String.eqb_neq in E3].
    { subst u. simpl. split.
      - intros [[= <- <-]|[]]. auto.
      - intros [(H & _)|[(H & _)|(_ & -> & ->)]]; auto; congruence. }
    simpl. split; [tauto|]. intros [(H & _)|[(H & _)|(H & _)]]; congruence. }
  split.
  - intros H3.
    inversion H3 as [|p2 u3 e3 t3 H2 He3]; subst; [congruence|].
    apply Hedge in He3 as [(_ & H & _)|[(_ & H & _)|(-> & _ & ->)]]; try congruence.
    inversion H2 as [|p1 u2 e2 t2 H1 He2]; subst; [congruence|].
    apply Hedge in He2 as [(_ & H & _)|[(-> & _ & ->)|(_ & H & _)]]; try congruence.
    inversion H1 as [|p0 u1 e1 t1 H0 He1]; subst; [congruence|].
    apply Hedge in He1 as [(-> & _ & ->)|[(_ & H & _)|(_ & H & _)]]; try congruence.
    inversion H0 as [|p' u0 e0 t0 _ He0]; subst; [reflexivity|].
    apply Hedge in He0 as [(_ & H & _)|[(_ & H & _)|(_ & H & _)]]; congruence.
  - intros ->.
    change [(A, f1); (B, f2); (C, f3)] with ((([] ++ [(A, f1)]) ++ [(B, f2)]) ++ [(C, f3)]).
    repeat econstructor; apply Hedge; auto.
Qed.

Lemma built_from_app_invoked (t : list (@Event Any)) a b x : forall after_call,
  built_from after_call (t ++ [Invoked a b x]) = built_from after_call t.
Proof.
  induction t as [|e t IH]; intros after_call; simpl; auto.
  destruct e as [[d|]|a' b' x']; auto.
  destruct after_call; now rewrite IH.
Qed.

(** C2. When the transform of a hop rejects, [convert] fails there with
    that rejection: what was yielded and produced before stays as it was,
    nothing is yielded for that hop or after it, and no later transform is
    called.  On a path of three hops whose second transform rejects,
    exactly one element has been produced when the failure arrives, the
    result of the first hop, which the consumer received after the source
    dataset that was there already; the third transform has not been
    called. *)
Theorem convert_hop_failure :
  (forall fuel (reg : @ConverterRegistry Any) (ds : list (@Dataset Any)) target
          u datas r pre from (f : @Transform Any Any Any) to post datas' reason,
     collect ds = ([u], datas) ->
     _reachable fuel reg (JsMap.keys datas) = Some r ->
     expandPath target (JsMap.get r target) = pre ++ (Some from, Some f, to) :: post ->
     from <> "" ->
     datas_after undefined datas pre = Some datas' ->
     f (datas_get undefined datas' from) = Rejected reason ->
     exists run,
       convert undefined fuel reg ds target = Some run /\
       outcome run = Failed (Rejection reason) /\
       yields run = yields (walk undefined ds u datas pre) /\
       produced run = produced (walk undefined ds u datas pre) /\
       invocations run = invocations (walk undefined ds u datas pre)
                         ++ [(from, to, datas_get undefined datas' from)]) /\
  (forall (A B C D : string) (f1 f2 f3 : Transform Any Any) (u : URL)
          (a b reason : Any) fuel,
     A <> B -> A <> C -> A <> D -> B <> C -> B <> D -> C <> D ->
     A <> "" -> B <> "" ->
     f1 a = Resolved b -> f2 b = Rejected reason -> 4 < fuel ->
     exists run,
       convert undefined fuel
         (register_all new_registry
            [mkConverter 1 (staticConverter A B f1);
             mkConverter 2 (staticConverter B C f2);
             mkConverter 3 (staticConverter C D f3)])
         [mkDataset A u a] D = Some run /\
       outcome run = Failed (Rejection reason) /\
       produced run = [mkDataset B u b] /\
       yields run = [Some (mkDataset A u a); Some (mkDataset B u b)] /\
       invocations run = [(A, B, a); (B, C, b)]).
Proof.
  split.
  - intros fuel reg ds target u datas r pre from f to post datas' reason
      Hcol Hr Hpath Hne Hpre Hf.
    assert (Hu : fst (collect ds) = [u]) by now rewrite Hcol.
    rewrite (convert_one_url _ _ _ _ _ Hu), Hcol. simpl. rewrite Hr, Hpath.
    rewrite (walk_app ds u pre _ datas datas' Hpre).
    rewrite (walk_rejected ds u datas' from f to post reason Hne Hf).
    eexists. split; [reflexivity|]. split; [reflexivity|]. simpl. split; [|split].
    + rewrite (yields_app_trace _ _ (outcome (walk undefined ds u datas pre)) Completed).
      destruct (walk undefined ds u datas pre). simpl. apply app_nil_r.
    + unfold produced. simpl. apply built_from_app_invoked.
    + rewrite (invocations_app_trace _ _ (outcome (walk undefined ds u datas pre)) Completed).
      destruct (walk undefined ds u datas pre). reflexivity.
  - intros A B C D f1 f2 f3 u a b reason fuel HAB HAC HAD HBC HBD HCD HA HB Hf1 Hf2 Hfuel.
    set (reg := register_all new_registry _).
    assert (Hcl : closed_under (graph_of reg) [A; B; C; D]).
    { intros x t e Hx Hin. unfold reg in Hin. rewrite chain_graph in Hin by assumption.
      destruct (String.eqb x A); [destruct Hin as [[= <- _]|[]]; simpl; auto|].
      destruct (String.eqb x B); [destruct Hin as [[= <- _]|[]]; simpl; auto|].
      destruct (String.eqb x C); [destruct Hin as [[= <- _]|[]]; simpl; auto|].
      destruct Hin. }
    destruct (_reachable_total fuel reg [A] [A; B; C; D] Hcl) as [r Hr];
      [intros x [<-|[]]; now left | exact Hfuel |].
    destruct (_reachable_shortest _ _ _ _ Hr) as (Hs & Hc & _).
    assert (Hchain : edge_path (graph_of reg) A [(A, f1); (B, f2); (C, f3)] D)
      by now apply chain_path.
    destruct (Hc A _ D (or_introl eq_refl) Hchain) as [p [Hp _]].
    destruct (Hs D p Hp) as [[s [[<-|[]] Hpath]] _].
    apply chain_path in Hpath; auto. subst p.
    exists {| trace := [Yielded (Some (mkDataset A u a)); Invoked A B a;
                        Yielded (Some (mkDataset B u b)); Invoked B C b];
              outcome := Failed (Rejection reason) |}.
    split; [|repeat split].
    unfold convert, collect. simpl. change (JsSet.of_list String.eqb [A]) with [A] in *.
    rewrite Hr, Hp. simpl.
    apply String.eqb_neq in HA, HB, HAB.
    unfold datas_get.
    repeat (progress (rewrite ?String.eqb_refl, ?HA, ?HB, ?HAB, ?Hf1, ?Hf2; simpl)).
    reflexivity.
Qed.

End Conversion.

(** ** Registration *)

Section Registration.

Context {Any : Type}.

Lemma set_delete_add_fresh (cs : list (@ConverterObj Any)) c :
  JsSet.has same_converter cs c = false ->
  JsSet.delete same_converter (JsSet.add same_converter cs c) c = cs.
Proof.
  intros H. unfold JsSet.add. rewrite H. unfold JsSet.delete.
  rewrite filter_app. simpl. unfold same_converter at 2. rewrite Nat.eqb_refl. simpl.
  rewrite app_nil_r. unfold JsSet.has in H.
  induction cs as [|x cs IH]; simpl in *; auto.
  apply orb_false_iff in H as [H1 H2]. rewrite H1. simpl. f_equal. auto.
Qed.

(** X19. Registering a converter the registry does not hold and disposing of
    the handle: the converter set is what it was, so is every answer of
    [listTargetMimeTypes], and the signal has fired twice, added then
    removed. *)
Lemma register_dispose_fresh (reg : @ConverterRegistry Any) c :
  JsSet.has same_converter (_converters reg) c = false ->
  let reg' := fst (dispose (fst (register reg c)) (snd (register reg c))) in
  _converters reg' = _converters reg /\
  emitted reg' = emitted reg ++ [mkChange c added; mkChange c removed] /\
  forall fuel sources, listTargetMimeTypes fuel reg' sources
                       = listTargetMimeTypes fuel reg sources.
Proof.
  intros H. unfold register, dispose.
  cbn [fst snd isDisposed handle_converter _converters emitted].
  rewrite set_delete_add_fresh by assumption.
  split; [reflexivity|]. split; [now rewrite <- app_assoc|].
  intros fuel sources. unfold listTargetMimeTypes, _reachable.
  cbn [_converters]. reflexivity.
Qed.

Lemma set_has_delete (cs : list (@ConverterObj Any)) c :
  JsSet.has same_converter (JsSet.delete same_converter cs c) c = false.
Proof.
  unfold JsSet.has, JsSet.delete. induction cs as [|x cs IH]; simpl; auto.
  destruct (same_converter c x) eqn:E; simpl; auto. now rewrite E.
Qed.

(** Registering a converter the registry already holds and disposing of
    the handle leaves the registry without it. *)
Lemma register_dispose_duplicate (reg : @ConverterRegistry Any) c :
  JsSet.has same_converter (_converters reg) c = true ->
  let reg' := fst (dispose (fst (register reg c)) (snd (register reg c))) in
  JsSet.has same_converter (_converters reg') c = false /\
  emitted reg' = emitted reg ++ [mkChange c added; mkChange c removed].
Proof.
  intros H. unfold register, dispose.
  cbn [fst snd isDisposed handle_converter _converters emitted].
  split; [apply set_has_delete | now rewrite <- app_assoc].
Qed.

(** C6 (where the code departs from it).  [register] on a converter that
    is already registered does not fail: the set keeps its one copy, an
    'added' event is emitted again and a live handle is returned. *)
Theorem register_duplicate_does_not_fail (reg : @ConverterRegistry Any) c :
  JsSet.has same_converter (_converters reg) c = true ->
  register reg c =
  ({| _converters := _converters reg;
      emitted := emitted reg ++ [mkChange c added] |},
   mkHandle c false).
Proof.
  intros H. unfold register, JsSet.add. now rewrite H.
Qed.

End Registration.

(** C9 (where the code departs from it).  A converter that is registered
    a second time and whose second handle is disposed of is gone from the
    registry: the mimetypes listed for source "A" were "A" and "B" before
    the second registration and are "A" alone after the disposal.  The
    signal fired twice meanwhile, added then removed. *)
Theorem register_dispose_forgets_earlier_registration :
  let reg0 := fst (register new_registry conv_AB) in
  let second := register reg0 conv_AB in
  let reg2 := fst (dispose (fst second) (snd second)) in
  _converters reg0 = [conv_AB] /\
  _converters reg2 = [] /\
  listTargetMimeTypes 3 reg0 ["A"] = Some ["A"; "B"] /\
  listTargetMimeTypes 3 reg2 ["A"] = Some ["A"] /\
  emitted reg2 = emitted reg0 ++ [mkChange conv_AB added; mkChange conv_AB removed].
Proof. cbv zeta. repeat split; reflexivity. Qed.

(** ** resolverURLConverter *)

Section Resolver.

Context {Any : Type} (extractResolveMimeType : string -> option string).

(** The two renderings of [singleConverter] agree on a callback that
    does not throw. *)
Lemma singleConverterE_pure {T V : Type}
  (fn : string -> option (string * @Transform Any T V)) (m : string) :
  singleConverterE (fun x => inr (fn x)) m = inr (singleConverter fn m).
Proof. unfold singleConverterE, singleConverter. now destruct (fn m). Qed.

(** X9. What the callback does when it is given the URL: an edge to the URL
    wrapper of the inner mimetype, whose transform returns the URL object,
    exactly for the schemes http and https. *)
Lemma resolverCallback_with_url (m inner : string) (u : URL) :
  extractResolveMimeType m = Some inner ->
  (protocol u = "http:" \/ protocol u = "https:" ->
   exists transform,
     @resolverCallback Any extractResolveMimeType m (Some u)
       = inr (Some (URLMimeType inner, transform)) /\
     forall x, transform x = Resolved u) /\
  (protocol u <> "http:" -> protocol u <> "https:" ->
   @resolverCallback Any extractResolveMimeType m (Some u) = inr None).
Proof.
  intros Hm. unfold resolverCallback. rewrite Hm. split.
  - intros H. eexists. split; [|reflexivity].
    destruct H as [-> | ->]; reflexivity.
  - intros H1 H2. apply String.eqb_neq in H1, H2. now rewrite H1, H2.
Qed.

(** C8 (where the code departs from it).  [singleConverter] calls the
    callback with the mimetype alone, so on every mimetype recognised as a
    resolve wrapper the converter throws a TypeError, whatever the URL;
    on any other mimetype it returns no edge. *)
Theorem resolverURLConverter_throws (m : string) :
  (forall inner, extractResolveMimeType m = Some inner ->
     @resolverURLConverter Any extractResolveMimeType m = inl ThrownTypeError) /\
  (extractResolveMimeType m = None ->
     @resolverURLConverter Any extractResolveMimeType m = inr JsMap.empty).
Proof.
  unfold resolverURLConverter, singleConverterE, call1, resolverCallback.
  split; [intros inner H | intros H]; now rewrite H.
Qed.

End Resolver.

(** ** The theorems at the sample data *)

Lemma graph_conv_AB (m : string) :
  graph_of (register_all new_registry [conv_AB]) m
  = if String.eqb m "A" then [("B", tag ">B")] else [].
Proof.
  unfold graph_of, register_all, composeManyConverters, composeConverters, conv_AB.
  simpl. rewrite staticConverter_apply. now destruct (String.eqb m "A").
Qed.

Lemma closed_conv_AB :
  closed_under (graph_of (register_all new_registry [conv_AB])) ["A"; "B"].
Proof.
  intros u t e _ Hin. rewrite graph_conv_AB in Hin.
  destruct (String.eqb u "A"); [|destruct Hin].
  destruct Hin as [[= <- _]|[]]. simpl. auto.
Qed.

Lemma convert_path_is_shortest_witness :
  exists run,
    convert no_payload 4 (register_all new_registry [conv_BC; conv_AC; conv_AB])
      [source_A] "C" = Some run /\
    outcome run = Completed /\
    yields run = [Some source_A; Some (mkDataset "C" sample_url "a>C")] /\
    invocations run = [("A", "C", "a")].
Proof.
  apply (proj2 (proj2 (convert_path_is_shortest no_payload))
           "A" "B" "C" (tag ">B") (tag ">C") (tag ">C")
           [conv_BC; conv_AC; conv_AB] sample_url "a" "a>C" 4);
    try discriminate; try reflexivity; [|lia].
  simpl. auto 10.
Defined.

Lemma convert_hop_failure_witness :
  exists run,
    convert no_payload 5 (register_all new_registry [conv_AB; conv_BC_broken; conv_CD])
      [source_A] "D" = Some run /\
    outcome run = Failed (Rejection "decode error") /\
    produced run = [mkDataset "B" sample_url "a>B"] /\
    yields run = [Some source_A; Some (mkDataset "B" sample_url "a>B")] /\
    invocations run = [("A", "B", "a"); ("B", "C", "a>B")].
Proof.
  apply (proj2 (convert_hop_failure no_payload)
           "A" "B" "C" "D" (tag ">B") (broken "decode error") (tag ">D")
           sample_url "a" "a>B" "decode error" 5);
    try discriminate; try reflexivity; lia.
Defined.

Lemma convert_several_urls_fails_witness :
  exists run,
    convert no_payload 0 new_registry
      [source_A; mkDataset "B" sample_url_twin "b"] "C" = Some run /\
    outcome run = Failed inconsistent_source /\
    trace run = [] /\ yields run = [] /\ invocations run = [].
Proof.
  apply (convert_several_urls_fails no_payload 0 new_registry).
  exists source_A, (mkDataset "B" sample_url_twin "b").
  simpl. split; [auto|]. split; [auto|]. discriminate.
Defined.

Lemma convert_identity_path_witness :
  exists run,
    convert no_payload 3 (register_all new_registry [conv_AB]) [source_A] "A"
      = Some run /\
    outcome run = Completed /\ yields run = [Some source_A] /\ invocations run = [].
Proof.
  apply (convert_identity_path no_payload 3 (register_all new_registry [conv_AB])
           source_A ["A"; "B"] closed_conv_AB); [simpl; auto | simpl; lia].
Defined.

Lemma convert_unreachable_is_empty_witness :
  convert no_payload 3 (register_all new_registry [conv_AB]) [source_A]
    "nonexistent/type"
  = Some {| trace := []; outcome := Completed |}.
Proof.
  apply (convert_unreachable_is_empty no_payload 3 (register_all new_registry [conv_AB])
           [source_A] "nonexistent/type" ["A"; "B"]).
  - reflexivity.
  - exact closed_conv_AB.
  - intros s [<-|[]]. simpl. auto.
  - simpl. lia.
  - intros s q [<-|[]] Hq. inversion Hq as [|p u e t _ He]; subst.
    rewrite graph_conv_AB in He. destruct (String.eqb u "A"); [|destruct He].
    destruct He as [[=]|[]].
Defined.

Lemma register_duplicate_does_not_fail_witness :
  register (fst (register new_registry conv_AB)) conv_AB =
  ({| _converters := [conv_AB];
      emitted := [mkChange conv_AB added; mkChange conv_AB added] |},
   mkHandle conv_AB false).
Proof.
  apply (register_duplicate_does_not_fail (fst (register new_registry conv_AB)) conv_AB).
  reflexivity.
Defined.

Lemma resolverURLConverter_throws_witness :
  @resolverURLConverter string sample_extractResolveMimeType "resolve;text/csv"
  = inl ThrownTypeError.
Proof.
  apply (proj1 (resolverURLConverter_throws sample_extractResolveMimeType
                  "resolve;text/csv") "text/csv").
  reflexivity.
Defined.

Lemma convert_inconsistent_source_iff_witness :
  convert no_payload 0 new_registry
    [source_A; mkDataset "B" sample_url_twin "b"] "C"
  = Some {| trace := []; outcome := Failed inconsistent_source |}.
Proof.
  apply (proj2 (proj2 (convert_inconsistent_source_iff no_payload 0 new_registry "C"))
           0 1 "http://example.org/data.csv" "http:" "A" "B" "a" "b").
  discriminate.
Defined.

(** ** Composing converters *)

Lemma get_app {V : Type} (m1 m2 : JsMap.t V) k :
  JsMap.get (m1 ++ m2) k =
  match JsMap.get m1 k with Some v => Some v | None => JsMap.get m2 k end.
Proof.
  induction m1 as [|[k0 v0] m1 IH]; simpl; auto.
  destruct (String.eqb k0 k); auto.
Qed.

Lemma keys_set_add {V : Type} (m : JsMap.t V) k v :
  JsMap.keys (JsMap.set m k v) = JsSet.add String.eqb (JsMap.keys m) k.
Proof.
  unfold JsSet.add. destruct (JsMap.has m k) eqn:E.
  - rewrite keys_set_old by assumption.
    apply has_true in E. apply set_has_existsb in E. now rewrite E.
  - rewrite keys_set_new by assumption.
    destruct (JsSet.has String.eqb (JsMap.keys m) k) eqn:E'; auto.
    apply set_has_existsb in E'. apply has_true in E'. congruence.
Qed.

Lemma keys_fold_set {V : Type} (es : list (string * V)) : forall m : JsMap.t V,
  JsMap.keys (fold_left (fun m e => JsMap.set m (fst e) (snd e)) es m)
  = fold_left (JsSet.add String.eqb) (map fst es) (JsMap.keys m).
Proof.
  induction es as [|e es IH]; intros m; simpl; auto.
  now rewrite IH, keys_set_add.
Qed.

(** In a [Map] built by successive [set]s the last entry for a key is the
    one that counts. *)
Lemma get_fold_set {V : Type} (es : list (string * V)) : forall (m : JsMap.t V) k,
  JsMap.get (fold_left (fun m e => JsMap.set m (fst e) (snd e)) es m) k
  = match JsMap.get (rev es) k with Some v => Some v | None => JsMap.get m k end.
Proof.
  induction es as [|[k0 v0] es IH]; intros m k; simpl; auto.
  rewrite IH, get_app. destruct (JsMap.get (rev es) k); auto. simpl.
  destruct (String.eqb k0 k) eqn:E.
  - apply String.eqb_eq in E. subst. apply get_set_same.
  - apply String.eqb_neq in E. now apply get_set_other.
Qed.

Lemma get_of_entries {V : Type} (es : list (string * V)) k :
  JsMap.get (JsMap.of_entries es) k = JsMap.get (rev es) k.
Proof.
  unfold JsMap.of_entries. rewrite get_fold_set. now destruct (JsMap.get (rev es) k).
Qed.

Lemma keys_of_entries {V : Type} (es : list (string * V)) :
  JsMap.keys (JsMap.of_entries es) = JsSet.of_list String.eqb (map fst es).
Proof. unfold JsMap.of_entries. now rewrite keys_fold_set. Qed.

Lemma get_rev_well_formed {V : Type} (m : JsMap.t V) k :
  well_formed m -> JsMap.get (rev m) k = JsMap.get m k.
Proof.
  intros Hm.
  assert (Hr : NoDup (JsMap.keys (rev m))).
  { unfold JsMap.keys. rewrite map_rev. now apply NoDup_rev. }
  destruct (JsMap.get (rev m) k) as [v|] eqn:E1; destruct (JsMap.get m k) as [v'|] eqn:E2; auto.
  - apply get_In, in_rev, (get_of_In m k v Hm) in E1. congruence.
  - apply get_In, in_rev, (get_of_In m k v Hm) in E1. congruence.
  - apply get_In, (proj1 (in_rev m (k, v'))), (get_of_In _ k v' Hr) in E2. congruence.
Qed.

(** Two proper [Map]s with the same keys in the same order and the same
    value at each are the same [Map]. *)
Lemma map_ext {V : Type} (m1 : JsMap.t V) : forall m2 : JsMap.t V,
  well_formed m1 -> JsMap.keys m1 = JsMap.keys m2 ->
  (forall k, JsMap.get m1 k = JsMap.get m2 k) -> m1 = m2.
Proof.
  induction m1 as [|[k v] m1 IH]; intros [|[k' v'] m2] Hnd Hk Hg; try discriminate; auto.
  simpl in Hk. injection Hk as <- Hk. inversion Hnd as [|? ? Hnotin Hnd']; subst.
  pose proof (Hg k) as Hgk. simpl in Hgk. rewrite String.eqb_refl in Hgk.
  injection Hgk as <-. f_equal. apply IH; auto.
  intros x. pose proof (Hg x) as Hgx. simpl in Hgx.
  destruct (String.eqb k x) eqn:E; auto.
  apply String.eqb_eq in E. subst x.
  assert (H1 : JsMap.get m1 k = None).
  { destruct (JsMap.get m1 k) eqn:E1; auto.
    exfalso. apply Hnotin. apply get_In_keys. congruence. }
  assert (H2 : JsMap.get m2 k = None).
  { destruct (JsMap.get m2 k) eqn:E2; auto.
    exfalso. apply Hnotin. fold (JsMap.keys m1). rewrite Hk. apply get_In_keys. congruence. }
  congruence.
Qed.

Lemma set_fold_add_of_list (ks : list string) : forall s : list string,
  fold_left (JsSet.add String.eqb) (JsSet.of_list String.eqb ks) s
  = fold_left (JsSet.add String.eqb) ks s.
Proof.
  unfold JsSet.of_list.
  induction ks as [|x ks IH] using rev_ind; intros s; auto.
  rewrite !fold_left_app. simpl.
  destruct (JsSet.has String.eqb (fold_left (JsSet.add String.eqb) ks []) x) eqn:E.
  - assert (H1 : JsSet.add String.eqb (fold_left (JsSet.add String.eqb) ks []) x
                 = fold_left (JsSet.add String.eqb) ks [])
      by (unfold JsSet.add at 1; now rewrite E).
    rewrite H1, IH. apply set_has_existsb in E.
    apply In_set_of_list_acc in E as [[]|E].
    assert (Hin : JsSet.has String.eqb (fold_left (JsSet.add String.eqb) ks s) x = true).
    { apply set_has_existsb. apply In_set_of_list_acc. auto. }
    assert (H2 : JsSet.add String.eqb (fold_left (JsSet.add String.eqb) ks s) x
                 = fold_left (JsSet.add String.eqb) ks s)
      by (unfold JsSet.add at 1; now rewrite Hin).
    now rewrite H2.
  - assert (H1 : JsSet.add String.eqb (fold_left (JsSet.add String.eqb) ks []) x
                 = fold_left (JsSet.add String.eqb) ks [] ++ [x])
      by (unfold JsSet.add at 1; now rewrite E).
    rewrite H1, fold_left_app. simpl. now rewrite IH.
Qed.

Lemma of_entries_app {V : Type} (es1 es2 : list (string * V)) :
  JsMap.of_entries (JsMap.of_entries es1 ++ es2) = JsMap.of_entries (es1 ++ es2).
Proof.
  apply map_ext.
  - apply NoDup_keys_of_entries.
  - rewrite !keys_of_entries, !map_app. unfold JsSet.of_list.
    rewrite !fold_left_app. f_equal.
    change (map fst (JsMap.of_entries es1)) with (JsMap.keys (JsMap.of_entries es1)).
    rewrite keys_of_entries. apply set_fold_add_of_list.
  - intros k. rewrite !get_of_entries, !rev_app_distr, !get_app.
    destruct (JsMap.get (rev es2) k); auto.
    rewrite get_rev_well_formed by apply NoDup_keys_of_entries.
    apply get_of_entries.
Qed.

Lemma of_entries_app_r {V : Type} (es1 es2 : list (string * V)) :
  JsMap.of_entries (es1 ++ JsMap.of_entries es2) = JsMap.of_entries (es1 ++ es2).
Proof.
  apply map_ext.
  - apply NoDup_keys_of_entries.
  - rewrite !keys_of_entries, !map_app. unfold JsSet.of_list.
    rewrite !fold_left_app.
    change (map fst (JsMap.of_entries es2)) with (JsMap.keys (JsMap.of_entries es2)).
    rewrite keys_of_entries. apply set_fold_add_of_list.
  - intros k. rewrite !get_of_entries, !rev_app_distr, !get_app.
    rewrite get_rev_well_formed by apply NoDup_keys_of_entries.
    now rewrite get_of_entries.
Qed.

Lemma of_entries_well_formed {V : Type} (m : JsMap.t V) :
  well_formed m -> JsMap.of_entries m = m.
Proof.
  intros Hm. apply map_ext.
  - apply NoDup_keys_of_entries.
  - rewrite keys_of_entries. unfold JsMap.keys, JsSet.of_list.
    assert (G : forall (ks s : list string), NoDup (s ++ ks) ->
              fold_left (JsSet.add String.eqb) ks s = s ++ ks).
    { induction ks as [|x ks IH]; intros s Hnd; simpl; [now rewrite app_nil_r|].
      unfold JsSet.add at 2.
      destruct (JsSet.has String.eqb s x) eqn:E.
      - apply set_has_existsb in E. apply NoDup_remove_2 in Hnd.
        exfalso. apply Hnd. apply in_app_iff. auto.
      - rewrite IH; rewrite <- app_assoc; auto. }
    apply (G (map fst m) []). exact Hm.
  - intros k. rewrite get_of_entries. now apply get_rev_well_formed.
Qed.

Section Composition.

Context {Any T V : Type}.

(** X1. Composition of converters is associative: for every mimetype the
    two groupings give the same [Map], entry for entry and in the same
    order. *)
Theorem composeConverters_assoc (a b c : @Converter Any T V) (m : string) :
  composeConverters (composeConverters a b) c m
  = composeConverters a (composeConverters b c) m.
Proof.
  unfold composeConverters.
  now rewrite of_entries_app, of_entries_app_r, app_assoc.
Qed.

Lemma composeConverters_get (a b : @Converter Any T V) (m t : string) :
  well_formed (a m) -> well_formed (b m) ->
  JsMap.get (composeConverters a b m) t
  = match JsMap.get (b m) t with
    | Some f => Some f
    | None => JsMap.get (a m) t
    end.
Proof.
  intros Ha Hb. unfold composeConverters.
  rewrite get_of_entries, rev_app_distr, get_app.
  now rewrite !get_rev_well_formed by assumption.
Qed.

(** X2. In a composition the second converter wins: a target it offers
    gets its transform, any other target keeps the transform of the first
    converter; and the composition offers a target exactly when one of the
    two does. *)
Theorem composeConverters_later_wins (a b : @Converter Any T V) (m t : string) :
  well_formed (a m) -> well_formed (b m) ->
  JsMap.get (composeConverters a b m) t
  = match JsMap.get (b m) t with
    | Some f => Some f
    | None => JsMap.get (a m) t
    end /\
  (In t (JsMap.keys (composeConverters a b m))
   <-> In t (JsMap.keys (a m)) \/ In t (JsMap.keys (b m))).
Proof.
  intros Ha Hb. split.
  - now apply composeConverters_get.
  - unfold composeConverters.
    rewrite keys_of_entries, In_set_of_list, map_app, in_app_iff. reflexivity.
Qed.

(** X3. The empty converter is the unit of composition, on either side,
    for a converter that returns proper [Map]s. *)
Theorem composeConverters_empty (a : @Converter Any T V) (m : string) :
  well_formed (a m) ->
  composeConverters emptyConverter a m = a m /\
  composeConverters a emptyConverter m = a m.
Proof.
  intros Ha. unfold composeConverters, emptyConverter, JsMap.empty.
  rewrite app_nil_r. simpl. split; now apply of_entries_well_formed.
Qed.

Lemma composeManyConverters_snoc (cs : list (@Converter Any T V)) c :
  composeManyConverters (cs ++ [c]) = composeConverters (composeManyConverters cs) c.
Proof. unfold composeManyConverters. now rewrite fold_left_app. Qed.

Lemma composeManyConverters_well_formed (cs : list (@Converter Any T V)) m :
  well_formed (composeManyConverters cs m).
Proof.
  destruct cs as [|c cs] using rev_ind.
  - constructor.
  - rewrite composeManyConverters_snoc. apply NoDup_keys_of_entries.
Qed.

(** X4. The converter composed of a list offers, from a mimetype, exactly
    the targets that some converter of the list offers; among converters
    that offer the same target the last of the list provides the
    transform. *)
Theorem composeManyConverters_edges (cs : list (@Converter Any T V)) (m t : string) :
  (In t (JsMap.keys (composeManyConverters cs m))
   <-> exists c, In c cs /\ In t (JsMap.keys (c m))) /\
  (forall c, well_formed (c m) ->
     JsMap.get (composeManyConverters (cs ++ [c]) m) t
     = match JsMap.get (c m) t with
       | Some f => Some f
       | None => JsMap.get (composeManyConverters cs m) t
       end).
Proof.
  split.
  - induction cs as [|c cs IH] using rev_ind.
    + simpl. split; [intros [] | intros [c [[] _]]].
    + rewrite composeManyConverters_snoc. unfold composeConverters.
      rewrite keys_of_entries, In_set_of_list, map_app, in_app_iff.
      fold (JsMap.keys (composeManyConverters cs m)). fold (JsMap.keys (c m)).
      rewrite IH. split.
      * intros [[c' [Hc' Ht]]|Ht].
        -- exists c'. split; auto. apply in_app_iff. auto.
        -- exists c. split; auto. apply in_app_iff. simpl. auto.
      * intros [c' [Hc' Ht]]. apply in_app_iff in Hc' as [Hc'|[<-|[]]]; eauto.
  - intros c Hc. rewrite composeManyConverters_snoc.
    apply composeConverters_get; auto.
    apply composeManyConverters_well_formed.
Qed.

End Composition.

(** ** The converter builders and the URL converters *)

Section Builders.

Context {Any T V : Type}.

Lemma seperateConverter_In (computeMimeType : string -> option string)
  (convert : @Transform Any T V) (m t : string) (f : @Transform Any T V) :
  In (t, f) (seperateConverter computeMimeType convert m)
  <-> computeMimeType m = Some t /\ f = convert.
Proof.
  unfold seperateConverter, singleConverter.
  destruct (computeMimeType m) as [t'|]; simpl.
  - split.
    + intros [[= <- <-]|[]]. auto.
    + intros [[= ->] ->]. auto.
  - split; [intros [] | intros [H _]; discriminate].
Qed.

Lemma staticConverter_In (sourceMimeType targetMimeType : string)
  (convert : @Transform Any T V) (m t : string) (f : @Transform Any T V) :
  In (t, f) (staticConverter sourceMimeType targetMimeType convert m)
  <-> m = sourceMimeType /\ t = targetMimeType /\ f = convert.
Proof.
  unfold staticConverter. rewrite seperateConverter_In.
  destruct (String.eqb m sourceMimeType) eqn:E.
  - apply String.eqb_eq in E. split.
    + intros [[= <-] ->]. auto.
    + intros (_ & -> & ->). auto.
  - apply String.eqb_neq in E. split.
    + intros [H _]. discriminate.
    + intros (H & _). contradiction.
Qed.

(** X5. A converter made by [seperateConverter] offers, from a mimetype,
    the one target that [computeMimeType] returns for it, with the given
    transform, and nothing when [computeMimeType] returns null; the one
    made by [staticConverter] offers its target from its source mimetype
    and nothing from any other. *)
Theorem builders_edges :
  (forall (computeMimeType : string -> option string) (convert : @Transform Any T V)
          (m t : string) (f : @Transform Any T V),
     In (t, f) (seperateConverter computeMimeType convert m)
     <-> computeMimeType m = Some t /\ f = convert) /\
  (forall (sourceMimeType targetMimeType : string) (convert : @Transform Any T V)
          (m t : string) (f : @Transform Any T V),
     In (t, f) (staticConverter sourceMimeType targetMimeType convert m)
     <-> m = sourceMimeType /\ t = targetMimeType /\ f = convert).
Proof.
  split.
  - exact seperateConverter_In.
  - exact staticConverter_In.
Qed.

End Builders.

Lemma length_append (a b : string) :
  String.length (a ++ b)%string = String.length a + String.length b.
Proof. induction a; simpl; auto. Qed.

Lemma length_URLMimeType (m : string) :
  String.length (URLMimeType m) = 36 + String.length m.
Proof. unfold URLMimeType. now rewrite length_append. Qed.

(** X6. The URL wrapper is injective, and it makes a mimetype longer by
    the 36 characters of its prefix: whatever [extractURLMimeType] returns
    is that much shorter than what it was given. *)
Theorem URLMimeType_injective :
  (forall a b : string, URLMimeType a = URLMimeType b -> a = b) /\
  (forall m : string, String.length (URLMimeType m) = 36 + String.length m) /\
  (forall s r : string, extractURLMimeType s = Some r ->
     String.length s = 36 + String.length r).
Proof.
  split; [|split].
  - intros a b H. unfold URLMimeType in H. now apply append_cancel in H.
  - exact length_URLMimeType.
  - intros s r H. apply extractURLMimeType_Some in H. subst s.
    apply length_URLMimeType.
Qed.

Section UrlConverters.

Context {Any : Type} (fetch_text : string -> @Promise Any string).

(** X7. [URLStringConverter] offers an edge from a mimetype exactly when
    that mimetype is a URL wrapper, to the mimetype wrapped; the target is
    shorter than the source, so unwrapping cannot go on for ever; and the
    transform fetches the address of a URL object, or the string itself. *)
Theorem URLStringConverter_edges (m t : string)
  (f : @Transform Any (URL + string) string) :
  (In (t, f) (URLStringConverter fetch_text m)
   <-> m = URLMimeType t /\ f = (fun url => fetch_text (url_toString url))) /\
  (In (t, f) (URLStringConverter fetch_text m) ->
   String.length t < String.length m /\
   (forall u : URL, f (inl u) = fetch_text (href u)) /\
   (forall s : string, f (inr s) = fetch_text s)).
Proof.
  assert (H : In (t, f) (URLStringConverter fetch_text m)
              <-> m = URLMimeType t /\ f = (fun url => fetch_text (url_toString url))).
  { unfold URLStringConverter. rewrite seperateConverter_In.
    now rewrite extractURLMimeType_Some. }
  split; [exact H|].
  intros Hin. apply H in Hin as [-> ->]. split; [|split; reflexivity].
  rewrite length_URLMimeType. lia.
Qed.

(** X8. The edge that the resolver's callback returns for a URL leads to
    a mimetype that [URLStringConverter] converts on: to the mimetype the
    resolve wrapper carried.  The callback returns an edge only for the
    schemes http and https, and the edge's transform resolves to the URL
    object. *)
Theorem resolver_then_URLString (extractResolveMimeType : string -> option string)
  (m t : string) (u : URL) (transform : @Transform Any string URL) :
  @resolverCallback Any extractResolveMimeType m (Some u) = inr (Some (t, transform)) ->
  (protocol u = "http:" \/ protocol u = "https:") /\
  (forall x, transform x = Resolved u) /\
  exists inner,
    extractResolveMimeType m = Some inner /\
    URLStringConverter fetch_text t
    = [(inner, fun url => fetch_text (url_toString url))].
Proof.
  unfold resolverCallback.
  destruct (extractResolveMimeType m) as [inner|]; [|discriminate].
  destruct (String.eqb (protocol u) "http:") eqn:E1;
    destruct (String.eqb (protocol u) "https:") eqn:E2; simpl;
    try discriminate; intros [= <- <-];
    (split; [first [left; now apply String.eqb_eq | right; now apply String.eqb_eq]|]);
    (split; [reflexivity|]); exists inner; (split; [reflexivity|]);
    unfold URLStringConverter, seperateConverter, singleConverter;
    rewrite (proj2 (extractURLMimeType_Some (URLMimeType inner) inner) eq_refl);
    reflexivity.
Qed.

End UrlConverters.

(** ** More on registration *)

Section RegistrationOrder.

Context {Any : Type}.

Lemma set_has_filter_other (cs : list (@ConverterObj Any)) c c' :
  conv_ref c' <> conv_ref c ->
  JsSet.has same_converter (JsSet.delete same_converter cs c) c'
  = JsSet.has same_converter cs c'.
Proof.
  intros Hne. unfold JsSet.has, JsSet.delete.
  induction cs as [|x cs IH]; simpl; auto.
  destruct (same_converter c x) eqn:E; simpl; rewrite IH; auto.
  unfold same_converter in *. apply Nat.eqb_eq in E.
  destruct (Nat.eqb (conv_ref c') (conv_ref x)) eqn:E'; auto.
  apply Nat.eqb_eq in E'. congruence.
Qed.

Lemma filter_swap {A : Type} (p q : A -> bool) (l : list A) :
  filter p (filter q l) = filter q (filter p l).
Proof.
  induction l as [|x l IH]; simpl; auto.
  destruct (p x) eqn:Ep; destruct (q x) eqn:Eq; simpl; rewrite ?Ep, ?Eq, IH; auto.
Qed.

(** X10. Disposing of a live handle removes its converter and no other:
    every converter with another reference is registered afterwards exactly
    if it was before; and two handles can be disposed of in either order
    with the same converters left, in the same order. *)
Theorem dispose_removes_only_its_converter (reg : @ConverterRegistry Any)
  (h : @Handle Any) :
  isDisposed h = false ->
  JsSet.has same_converter (_converters (fst (dispose reg h))) (handle_converter h)
    = false /\
  (forall c, conv_ref c <> conv_ref (handle_converter h) ->
     JsSet.has same_converter (_converters (fst (dispose reg h))) c
     = JsSet.has same_converter (_converters reg) c) /\
  (forall h' : @Handle Any, isDisposed h' = false ->
     _converters (fst (dispose (fst (dispose reg h)) h'))
     = _converters (fst (dispose (fst (dispose reg h')) h))).
Proof.
  intros Hlive. unfold dispose. rewrite Hlive. cbn [fst _converters].
  split; [apply set_has_delete|]. split.
  - intros c Hne. now apply set_has_filter_other.
  - intros h' Hlive'. rewrite Hlive'. cbn [fst _converters].
    unfold JsSet.delete. apply filter_swap.
Qed.

Lemma register_all_snoc (reg : @ConverterRegistry Any) cs c :
  register_all reg (cs ++ [c]) = fst (register (register_all reg cs) c).
Proof. unfold register_all. now rewrite fold_left_app. Qed.

Lemma has_converter_refs (cs : list (@ConverterObj Any)) c :
  JsSet.has same_converter cs c = existsb (Nat.eqb (conv_ref c)) (map conv_ref cs).
Proof.
  unfold JsSet.has, same_converter.
  induction cs as [|x cs IH]; simpl; auto. now rewrite IH.
Qed.

Lemma set_add_all_first_registrations (cs : list (@ConverterObj Any)) :
  forall s : list (@ConverterObj Any),
  fold_left (JsSet.add same_converter) cs s
  = s ++ first_registrations (map conv_ref s) cs.
Proof.
  induction cs as [|c cs IH]; intros s; simpl.
  - now rewrite app_nil_r.
  - rewrite IH. unfold JsSet.add. rewrite has_converter_refs.
    destruct (existsb (Nat.eqb (conv_ref c)) (map conv_ref s)); auto.
    rewrite map_app, <- app_assoc. reflexivity.
Qed.

Lemma set_add_all_distinct (cs : list (@ConverterObj Any)) :
  forall s : list (@ConverterObj Any),
  NoDup (map conv_ref s) ->
  NoDup (map conv_ref (fold_left (JsSet.add same_converter) cs s)).
Proof.
  induction cs as [|c cs IH]; intros s Hs; simpl; auto.
  apply IH. unfold JsSet.add. rewrite has_converter_refs.
  destruct (existsb (Nat.eqb (conv_ref c)) (map conv_ref s)) eqn:E; auto.
  rewrite map_app. simpl. apply NoDup_snoc; auto.
  intros Hin. apply Bool.not_true_iff_false in E. apply E.
  apply existsb_exists. exists (conv_ref c). split; auto. apply Nat.eqb_refl.
Qed.

Lemma register_all_converters (reg : @ConverterRegistry Any) (cs : list (@ConverterObj Any)) :
  _converters (register_all reg cs)
  = fold_left (JsSet.add same_converter) cs (_converters reg).
Proof.
  revert reg. induction cs as [|c cs IH]; intros reg; auto.
  change (register_all reg (c :: cs)) with (register_all (fst (register reg c)) cs).
  now rewrite IH.
Qed.

(** X11. A run of registrations emits one 'added' event for each call, in
    the order of the calls and also for a converter registered before.
    The set keeps the converters it had, in their order, followed by the
    converters of the run that were not registered before, each once, in
    the order of their first registration; no two converters of the set
    have the same reference. *)
Theorem register_all_events (reg : @ConverterRegistry Any) (cs : list (@ConverterObj Any)) :
  emitted (register_all reg cs) = emitted reg ++ map (fun c => mkChange c added) cs /\
  _converters (register_all reg cs)
  = _converters reg ++ first_registrations (map conv_ref (_converters reg)) cs /\
  (NoDup (map conv_ref (_converters reg)) ->
   NoDup (map conv_ref (_converters (register_all reg cs)))).
Proof.
  split; [|split].
  - revert reg. induction cs as [|c cs IH]; intros reg.
    + simpl. now rewrite app_nil_r.
    + change (register_all reg (c :: cs)) with (register_all (fst (register reg c)) cs).
      rewrite IH. simpl. now rewrite <- app_assoc.
  - rewrite register_all_converters. apply set_add_all_first_registrations.
  - intros Hnd. rewrite register_all_converters. now apply set_add_all_distinct.
Qed.

(** X12. A converter registered for the first time takes precedence over
    the ones registered before it: a target it offers gets its transform.
    Registering a converter again changes nothing in the graph: it keeps
    the precedence of its first registration. *)
Theorem register_precedence (reg : @ConverterRegistry Any) (c : @ConverterObj Any)
  (m t : string) :
  (JsSet.has same_converter (_converters reg) c = false ->
   well_formed (conv_fn c m) ->
   JsMap.get (graph_of (fst (register reg c)) m) t
   = match JsMap.get (conv_fn c m) t with
     | Some f => Some f
     | None => JsMap.get (graph_of reg m) t
     end) /\
  (JsSet.has same_converter (_converters reg) c = true ->
   graph_of (fst (register reg c)) = graph_of reg).
Proof.
  unfold graph_of, register. cbn [fst _converters]. unfold JsSet.add. split.
  - intros Hfresh Hwf. rewrite Hfresh, map_app. simpl.
    rewrite composeManyConverters_snoc.
    apply composeConverters_get; auto. apply composeManyConverters_well_formed.
  - intros Hdup. now rewrite Hdup.
Qed.

End RegistrationOrder.

(** ** More on the loop of [convert] *)

Section Loop.

Context {Any : Type} (undefined : Any).





Lemma walk_yields_url (ds : list (@Dataset Any)) u steps : forall datas d,
  In (Some d) (yields (walk undefined ds u datas steps)) -> In d ds \/ url d = u.
Proof.
  induction steps as [|[[from f] to] steps IH]; intros datas d; simpl; [intros []|].
  destruct (falsy from).
  - unfold yields. simpl. intros [H|H]; [|now apply (IH datas)].
    left. apply find_some in H. tauto.
  - destruct f as [f|]; [|intros []].
    destruct (f _) as [y|reason]; [|intros []].
    unfold yields. simpl. intros [[= <-]|H]; [now right|].
    now apply (IH (JsMap.set datas to y)).
Qed.

(** X14. Every dataset that [convert] yields is of the URL object that
    the source datasets reference: it is a source dataset, or a dataset
    built with the URL object of the first source dataset. *)
Theorem convert_yields_share_url fuel (reg : @ConverterRegistry Any)
  (ds : list (@Dataset Any)) (target : string) (run : @Run Any) (d : @Dataset Any) :
  convert undefined fuel reg ds target = Some run ->
  In (Some d) (yields run) ->
  (In d ds \/ url d = url (hd d ds)) /\
  forall d0, In d0 ds -> url_ref (url d) = url_ref (url d0).
Proof.
  intros Hrun Hd.
  destruct (fst (collect ds)) as [|u [|u' us]] eqn:Hu;
    try (unfold convert in Hrun; rewrite Hu in Hrun; injection Hrun as <-; destruct Hd).
  rewrite (convert_one_url _ _ _ _ _ _ Hu) in Hrun.
  destruct (_reachable _ _ _) as [r|]; [|discriminate]. injection Hrun as <-.
  apply walk_yields_url in Hd.
  apply collect_one_url in Hu as [d1 [ds' [-> [<- Hall]]]]. simpl.
  assert (Hrefs : forall x, In x (d1 :: ds') -> url_ref (url x) = url_ref (url d1)).
  { intros x [<-|Hx]; auto. }
  split; [exact Hd|].
  intros d0 Hd0. rewrite (Hrefs d0 Hd0).
  destruct Hd as [Hd| ->]; auto.
Qed.

Lemma walk_hop_entry (ds : list (@Dataset Any)) u datas a
  (f : @Transform Any Any Any) b steps :
  a <> "" ->
  walk undefined ds u datas (hop_entry (a, f, b) :: steps)
  = match f (datas_get undefined datas a) with
    | Rejected reason =>
        {| trace := [Invoked a b (datas_get undefined datas a)];
           outcome := Failed (Rejection reason) |}
    | Resolved y =>
        and_then (Invoked a b (datas_get undefined datas a))
          (and_then (Yielded (Some (mkDataset b u y)))
             (walk undefined ds u (JsMap.set datas b y) steps))
    end.
Proof.
  intros Ha. simpl. apply String.eqb_neq in Ha. rewrite Ha. reflexivity.
Qed.

(** X15. On hops that follow one another the loop of [convert] is a
    pipeline: each transform is called on the result of the one before,
    the first on what the data map holds for the mimetype it leaves, and
    the data map plays no other part. *)
Theorem walk_is_pipeline (ds : list (@Dataset Any)) (u : URL)
  (hops : list (string * @Transform Any Any Any * string)) :
  forall (h : string * @Transform Any Any Any * string) (datas : JsMap.t Any),
  chained (h :: hops) ->
  walk undefined ds u datas (map hop_entry (h :: hops))
  = pipeline u (h :: hops) (datas_get undefined datas (fst (fst h))).
Proof.
  induction hops as [|h' hops IH]; intros [[a f] b] datas Hch; simpl in Hch;
    destruct Hch as (Ha & Hnext & Hrest).
  - change (map hop_entry [(a, f, b)]) with [hop_entry (a, f, b)].
    rewrite walk_hop_entry by assumption. cbn [pipeline fst snd].
    now destruct (f _).
  - change (map hop_entry ((a, f, b) :: h' :: hops))
      with (hop_entry (a, f, b) :: map hop_entry (h' :: hops)).
    rewrite walk_hop_entry by assumption. cbn [pipeline fst snd].
    destruct (f (datas_get undefined datas a)) as [y|reason]; auto.
    rewrite (IH h' (JsMap.set datas b y) Hrest). subst b.
    replace (datas_get undefined (JsMap.set datas (fst (fst h')) y) (fst (fst h')))
      with y by (unfold datas_get; now rewrite get_set_same).
    reflexivity.
Qed.

(** X16. A run of the loop that completes has yielded one element for
    each entry of the path; a run that fails has yielded fewer. *)
Theorem walk_yield_count (ds : list (@Dataset Any)) (u : URL)
  (steps : list (option string * option (@Transform Any Any Any) * string))
  (datas : JsMap.t Any) :
  match outcome (walk undefined ds u datas steps) with
  | Completed => List.length (yields (walk undefined ds u datas steps)) = List.length steps
  | Failed _ => List.length (yields (walk undefined ds u datas steps)) < List.length steps
  end.
Proof.
  revert datas. induction steps as [|[[from f] to] steps IH]; intros datas; simpl; auto.
  destruct (falsy from).
  - specialize (IH datas). unfold yields in *. simpl.
    destruct (outcome (walk undefined ds u datas steps)); simpl; lia.
  - destruct f as [f|]; simpl; [|lia].
    destruct (f _) as [y|reason]; simpl; [|lia].
    specialize (IH (JsMap.set datas to y)). unfold yields in *. simpl.
    destruct (outcome (walk undefined ds u (JsMap.set datas to y) steps)); simpl; lia.
Qed.

(** X17. A hop that leaves the empty mimetype, wherever it stands in the
    path, is passed over: its transform is not called, the element yielded
    for it is the source dataset of the mimetype it arrives at, if there is
    one, and the hops after it find the data map as it was. *)
Theorem walk_skips_empty_mimetype (ds : list (@Dataset Any)) (u : URL)
  (pre post : list (option string * option (@Transform Any Any Any) * string))
  (f : @Transform Any Any Any) (to : string) (datas datas' : JsMap.t Any) :
  datas_after undefined datas pre = Some datas' ->
  walk undefined ds u datas (pre ++ (Some "", Some f, to) :: post)
  = {| trace := trace (walk undefined ds u datas pre)
                ++ Yielded (find (fun x => String.eqb (mimeType x) to) ds)
                   :: trace (walk undefined ds u datas' post);
       outcome := outcome (walk undefined ds u datas' post) |}.
Proof.
  intros Hpre. now rewrite (walk_app undefined ds u pre _ datas datas' Hpre).
Qed.

End Loop.

(** ** What [listTargetMimeTypes] lists *)

Lemma NoDup_set_of_list (l : list string) : NoDup (JsSet.of_list String.eqb l).
Proof.
  unfold JsSet.of_list.
  assert (G : forall s, NoDup s -> NoDup (fold_left (JsSet.add String.eqb) l s)).
  { induction l as [|x l IH]; intros s Hs; simpl; auto.
    apply IH. unfold JsSet.add.
    destruct (JsSet.has String.eqb s x) eqn:E; auto.
    apply NoDup_snoc; auto. rewrite <- set_has_existsb. congruence. }
  apply G. constructor.
Qed.

(** X18. With the search of graph.ts as the specification describes it,
    and on a finite graph, [listTargetMimeTypes] returns each mimetype
    once, the source mimetypes among them, and a mimetype is listed exactly
    when a chain of converter edges leads to it from a source mimetype. *)
Theorem listTargetMimeTypes_exact {Any : Type} fuel (reg : @ConverterRegistry Any)
  (sources universe : list string) :
  closed_under (graph_of reg) universe -> incl sources universe ->
  List.length universe < fuel ->
  exists listed,
    listTargetMimeTypes fuel reg sources = Some listed /\
    NoDup listed /\
    incl sources listed /\
    forall t, In t listed <->
      exists s q, In s sources /\ edge_path (graph_of reg) s q t.
Proof.
  intros Hcl Hin Hfuel. unfold listTargetMimeTypes.
  destruct (_reachable_total fuel reg sources universe Hcl Hin Hfuel) as [r Hr].
  rewrite Hr. destruct (_reachable_shortest _ _ _ _ Hr) as (Hs & Hc & Hi).
  eexists. split; [reflexivity|]. split; [apply NoDup_set_of_list|].
  assert (Hkeys : forall t, In t (JsSet.of_list String.eqb (JsMap.keys r))
                            <-> JsMap.get r t <> None).
  { intros t. rewrite In_set_of_list. symmetry. apply get_In_keys. }
  split.
  - intros s Hsrc. apply Hkeys. rewrite (Hi s Hsrc). discriminate.
  - intros t. rewrite Hkeys. split.
    + intros Hget. destruct (JsMap.get r t) as [p|] eqn:E; [|congruence].
      destruct (Hs t p E) as [[s [Hsrc Hpath]] _]. eauto.
    + intros [s [q [Hsrc Hpath]]]. destruct (Hc s q t Hsrc Hpath) as [p [Hp _]].
      congruence.
Qed.

(** ** The further properties at the sample data *)

Lemma sample_static_well_formed (src tgt : string) (f : @Transform string string string)
  (m : string) : well_formed (staticConverter src tgt f m).
Proof.
  rewrite staticConverter_apply. destruct (String.eqb m src); repeat constructor.
  intros [].
Qed.

Lemma composeConverters_later_wins_witness :
  JsMap.get (composeConverters (staticConverter "A" "B" (tag ">B"))
                               (staticConverter "A" "B" (tag ">B2")) "A") "B"
  = Some (tag ">B2").
Proof.
  rewrite (proj1 (composeConverters_later_wins
                    (staticConverter "A" "B" (tag ">B"))
                    (staticConverter "A" "B" (tag ">B2")) "A" "B"
                    (sample_static_well_formed _ _ _ _)
                    (sample_static_well_formed _ _ _ _))).
  reflexivity.
Defined.

Lemma composeConverters_empty_witness :
  composeConverters emptyConverter (staticConverter "A" "B" (tag ">B")) "A"
  = [("B", tag ">B")] /\
  composeConverters (staticConverter "A" "B" (tag ">B")) emptyConverter "A"
  = [("B", tag ">B")].
Proof.
  exact (composeConverters_empty (staticConverter "A" "B" (tag ">B")) "A"
           (sample_static_well_formed _ _ _ _)).
Defined.

Lemma resolverCallback_with_url_witness :
  exists transform,
    @resolverCallback string sample_extractResolveMimeType "resolve;text/csv"
      (Some sample_url)
    = inr (Some (URLMimeType "text/csv", transform)) /\
    forall x, transform x = Resolved sample_url.
Proof.
  apply (proj1 (@resolverCallback_with_url string sample_extractResolveMimeType
                  "resolve;text/csv" "text/csv" sample_url eq_refl)).
  left. reflexivity.
Defined.

Lemma resolver_then_URLString_witness :
  exists inner,
    sample_extractResolveMimeType "resolve;text/csv" = Some inner /\
    URLStringConverter (fun address => @Resolved string string address)
      (URLMimeType "text/csv")
    = [(inner, fun url => Resolved (url_toString url))].
Proof.
  apply (resolver_then_URLString (fun address => @Resolved string string address)
           sample_extractResolveMimeType "resolve;text/csv" (URLMimeType "text/csv")
           sample_url (fun _ => Resolved sample_url)).
  reflexivity.
Defined.

Lemma register_dispose_fresh_witness :
  let reg := fst (register new_registry conv_AB) in
  let reg' := fst (dispose (fst (register reg conv_BC)) (snd (register reg conv_BC))) in
  _converters reg' = [conv_AB] /\
  emitted reg' = emitted reg ++ [mkChange conv_BC added; mkChange conv_BC removed] /\
  forall fuel sources, listTargetMimeTypes fuel reg' sources
                       = listTargetMimeTypes fuel reg sources.
Proof.
  exact (register_dispose_fresh (fst (register new_registry conv_AB)) conv_BC eq_refl).
Defined.

Lemma dispose_removes_only_its_converter_witness :
  let reg := register_all new_registry [conv_AB; conv_BC] in
  JsSet.has same_converter (_converters (fst (dispose reg (mkHandle conv_AB false))))
    conv_AB = false /\
  JsSet.has same_converter (_converters (fst (dispose reg (mkHandle conv_AB false))))
    conv_BC = true.
Proof.
  cbv zeta.
  destruct (dispose_removes_only_its_converter
              (register_all new_registry [conv_AB; conv_BC])
              (mkHandle conv_AB false) eq_refl) as (H1 & H2 & _).
  split; [exact H1|]. rewrite (H2 conv_BC); [reflexivity | discriminate].
Defined.

Lemma convert_yields_share_url_witness :
  url_ref (url (mkDataset "B" sample_url "a>B")) = url_ref (url source_A).
Proof.
  apply (proj2 (convert_yields_share_url no_payload 3
                  (register_all new_registry [conv_AB]) [source_A] "B"
                  {| trace := [Yielded (Some source_A); Invoked "A" "B" "a";
                               Yielded (Some (mkDataset "B" sample_url "a>B"))];
                     outcome := Completed |}
                  (mkDataset "B" sample_url "a>B") eq_refl
                  (or_intror (or_introl eq_refl)))).
  left. reflexivity.
Defined.

Lemma walk_is_pipeline_witness :
  walk no_payload [source_A] sample_url [("A", "a")]
    (map hop_entry [("A", tag ">B", "B"); ("B", tag ">C", "C")])
  = pipeline sample_url [("A", tag ">B", "B"); ("B", tag ">C", "C")] "a".
Proof.
  apply (walk_is_pipeline no_payload [source_A] sample_url
           [("B", tag ">C", "C")] ("A", tag ">B", "B") [("A", "a")]).
  simpl. repeat split; discriminate.
Defined.

Lemma walk_skips_empty_mimetype_witness :
  walk no_payload [source_A] sample_url [("A", "a")]
    ([(None, None, "A")] ++ (Some "", Some (broken "never called"), "B") :: [])
  = {| trace := [Yielded (Some source_A); Yielded None]; outcome := Completed |}.
Proof.
  apply (walk_skips_empty_mimetype no_payload [source_A] sample_url
           [(None, None, "A")] [] (broken "never called") "B"
           [("A", "a")] [("A", "a")]).
  reflexivity.
Defined.

Lemma listTargetMimeTypes_exact_witness :
  exists listed,
    listTargetMimeTypes 3 (register_all new_registry [conv_AB]) ["A"] = Some listed /\
    NoDup listed /\
    incl ["A"] listed /\
    forall t, In t listed <->
      exists s q, In s ["A"] /\
        edge_path (graph_of (register_all new_registry [conv_AB])) s q t.
Proof.
  apply (listTargetMimeTypes_exact 3 (register_all new_registry [conv_AB])
           ["A"] ["A"; "B"] closed_conv_AB).
  - intros s [<-|[]]. simpl. auto.
  - simpl. lia.
Defined.
